(** * gago: the generational orchestration engine (ga.go)

    A shallow embedding of [Topology], [GA], [GA.Validate], [GA.findBest],
    [GA.Initialize] and [GA.Enhance], and the properties of the engine
    that follow from the code.

    Conventions.
    - Go's [int] and [time.Duration] are 64-bit two's complement integers:
      values are [Z], and [++] and [+=] wrap around through [wrap64].
    - [float64] is IEEE 754 binary64, modelled by the Standard Library's
      [spec_float]; the Go comparison [a < b] is [SFltb a b].
    - [error] is an optional message: [None] is Go's [nil].
    - A run-time panic (nil dereference, index out of range, integer
      division by zero) is the [None] result of the [M] monad.
    - The user's collaborators (genome factory, genome evaluation, Model,
      Migrator) are values of function type; the time-seeded random
      generators, the wall clock, the scheduling of the goroutines and
      the room the allocator has for a slice are explicit inputs. *)

From Stdlib Require Import String ZArith List Bool Lia Permutation Sorted.
From Stdlib Require Import Floats.SpecFloat.
Import ListNotations.

Local Open Scope Z_scope.

(** ** Machine integers *)

Definition min_int : Z := - 2 ^ 63.
Definition max_int : Z := 2 ^ 63 - 1.

(** Two's complement wrap-around of a 64-bit signed integer. *)
Definition wrap64 (z : Z) : Z := (z + 2 ^ 63) mod 2 ^ 64 - 2 ^ 63.

(** Go's [a % b] on [int]: truncated remainder, panics when [b] is zero. *)
Definition int_rem (a b : Z) : option Z :=
  if b =? 0 then None else Some (Z.rem a b).

(** ** float64 *)

Definition float64 : Type := spec_float.

Definition pos_inf : float64 := S754_infinity false.
Definition neg_inf : float64 := S754_infinity true.
Definition pos_zero : float64 := S754_zero false.
Definition neg_zero : float64 := S754_zero true.
Definition NaN : float64 := S754_nan.
(** 1.0 = 2^52 * 2^-52 and 2.0 = 2^52 * 2^-51. *)
Definition one : float64 := S754_finite false 4503599627370496 (-52).
Definition two : float64 := S754_finite false 4503599627370496 (-51).

Definition is_NaN (f : float64) : bool :=
  match f with S754_nan => true | _ => false end.

(** ** Errors *)

Definition error : Type := option string.

(** ** Topology *)

Record Topology : Type := {
  NPopulations : Z;
  NSpecies : Z;
  NIndividuals : Z
}.

Definition Topology_Validate (topo : Topology) : error :=
  if NPopulations topo <? 1 then
    Some "'NPopulations' should be higher or equal to 1"%string
  else if NSpecies topo <? 0 then
    Some "'NSpecies' should be higher or equal to 1 if provided"%string
  else if NIndividuals topo <? 1 then
    Some "'NIndividuals' should be higher or equal to 1"%string
  else None.

(** ** Observable events and the effect monad

    The calls the engine makes to its collaborators are recorded in a
    trace, in the order in which they are issued.  [EvLog j] is the [go]
    statement that starts the logging of population [j]. *)

Inductive Event : Type :=
| EvMigrate                            (* ga.Migrator.Apply(ga.Populations, ga.rng) *)
| EvApply (j : nat) (k : option nat)   (* ga.Model.Apply on population j, or on its species k *)
| EvLog (j : nat).                     (* go ga.Populations[j].Log(ga.Logger) *)

Definition is_migrate (e : Event) : bool :=
  match e with EvMigrate => true | _ => false end.

Definition is_apply (e : Event) : bool :=
  match e with EvApply _ _ => true | _ => false end.

(** Number of Migrator invocations recorded in a trace. *)
Definition migrations (tr : list Event) : nat :=
  length (filter is_migrate tr).

(** A computation yields the trace of what it did and, unless it
    panicked, a result. *)
Definition M (A : Type) : Type := (list Event * option A)%type.

Definition ret {A : Type} (a : A) : M A := ([], Some a).
Definition panic {A : Type} : M A := ([], None).
Definition emit (e : Event) : M unit := ([e], Some tt).

Definition bind {A B : Type} (m : M A) (k : A -> M B) : M B :=
  match m with
  | (tr, None) => (tr, None)
  | (tr, Some a) => let (tr', r) := k a in (tr ++ tr', r)
  end.

Notation "x <- m ;; k" := (bind m (fun x => k))
  (at level 61, m at next level, right associativity).

Definition trace_of {A : Type} (m : M A) : list Event := fst m.
Definition result_of {A : Type} (m : M A) : option A := snd m.

(** [for j, a := range l { f j a }], collecting what each iteration leaves
    in slot [j]; [j0] is the index of the head of [l]. *)
Fixpoint for_range {A B : Type} (j0 : nat) (l : list A) (f : nat -> A -> M B)
  : M (list B) :=
  match l with
  | [] => ret []
  | a :: rest =>
      b <- f j0 a ;;
      bs <- for_range (S j0) rest f ;;
      ret (b :: bs)
  end.

(** ** Goroutines

    [Initialize] and [Enhance] start one goroutine per population and
    wait for all of them.  Each goroutine works on its own slot
    [ga.Populations[j]], so what the slots hold at the barrier does not
    depend on the scheduling; the order in which the goroutines issue
    their calls does.  The choices of the scheduler are an input: [order]
    names, step by step, the goroutine that issues its next call, and
    what the list leaves undone is run in index order.  A goroutine that
    panics takes the process down at the step where it is scheduled. *)

(** Slot [j] of [l] replaced by [x]. *)
Fixpoint set_slot {A : Type} (j : nat) (x : A) (l : list A) : list A :=
  match l, j with
  | [], _ => []
  | _ :: rest, O => x :: rest
  | a :: rest, S j' => a :: set_slot j' x rest
  end.

(** The goroutines run to their end one after the other. *)
Fixpoint drain {B : Type} (runs : list (M B)) : M (list B) :=
  match runs with
  | [] => ret []
  | run :: rest =>
      b <- run ;;
      bs <- drain rest ;;
      ret (b :: bs)
  end.

(** [runs] holds, for each goroutine, the calls it has still to issue and
    what it leaves in its slot. *)
Fixpoint interleave {B : Type} (order : list nat) (runs : list (M B)) : M (list B) :=
  match order with
  | [] => drain runs
  | j :: order' =>
      match nth_error runs j with
      | Some (e :: calls, r) =>
          let (tr, rs) := interleave order' (set_slot j (calls, r) runs) in
          (e :: tr, rs)
      | Some ([], None) => panic
      | _ => interleave order' runs
      end
  end.

(** The goroutine [f j a] of each slot [j] of [l]; [j0] is the index of
    the head of [l]. *)
Fixpoint go_runs {A B : Type} (j0 : nat) (l : list A) (f : nat -> A -> M B)
  : list (M B) :=
  match l with
  | [] => []
  | a :: rest => f j0 a :: go_runs (S j0) rest f
  end.

(** [for j := range l { go f j l[j] }; wg.Wait()]. *)
Definition go_range {A B : Type} (order : list nat) (l : list A) (f : nat -> A -> M B)
  : M (list B) :=
  interleave order (go_runs 0 l f).

(** ** The Genome interface

    Only [Evaluate] is called by the engine. *)
Class GenomeI (Genome : Type) : Type := {
  Evaluate : Genome -> float64
}.

Section Engine.

Context {Genome Rand : Type}.

(** *** Individuals and populations *)

Record Individual : Type := {
  indi_Genome : Genome;
  indi_Fitness : float64
}.

Definition Individuals : Type := list Individual.

Record Population : Type := {
  pop_Individuals : Individuals;
  pop_Age : Z;
  pop_Generations : Z;
  pop_ID : nat;
  pop_rng : Rand
}.

Definition Populations : Type := list Population.

Definition set_pop_Individuals (pop : Population) (indis : Individuals) : Population :=
  {| pop_Individuals := indis;
     pop_Age := pop_Age pop;
     pop_Generations := pop_Generations pop;
     pop_ID := pop_ID pop;
     pop_rng := pop_rng pop |}.

Definition set_pop_Age (pop : Population) (age : Z) : Population :=
  {| pop_Individuals := pop_Individuals pop;
     pop_Age := age;
     pop_Generations := pop_Generations pop;
     pop_ID := pop_ID pop;
     pop_rng := pop_rng pop |}.

Definition set_pop_Generations (pop : Population) (g : Z) : Population :=
  {| pop_Individuals := pop_Individuals pop;
     pop_Age := pop_Age pop;
     pop_Generations := g;
     pop_ID := pop_ID pop;
     pop_rng := pop_rng pop |}.

(** *** Collaborator interfaces *)

(** [type GenomeMaker func(rng *rand.Rand) Genome]: consumes randomness. *)
Definition GenomeMaker : Type := Rand -> Genome * Rand.

(** The Model interface: [Apply(pop *Population)] works in place on the
    population it is handed, [Validate() error] checks its settings. *)
Record Model : Type := {
  Model_Apply : Population -> Population;
  Model_Validate : error
}.

(** The Migrator interface: [Apply(pops Populations, rng *rand.Rand)]
    rewrites the slots of the slice it is handed and consumes randomness. *)
Definition Migrator : Type := Populations -> Rand -> Populations * Rand.

(** *** The GA *)

Record GA : Type := {
  (* Fields that are provided by the user; [None] is a nil value *)
  ga_MakeGenome : option GenomeMaker;
  ga_Topology : Topology;
  ga_Model : option Model;
  ga_Migrator : option Migrator;
  ga_MigFrequency : Z;
  ga_Logger : bool;                    (* whether a logger is provided *)
  (* Fields that are generated at runtime *)
  ga_Populations : Populations;
  ga_Best : Individual;
  ga_Age : Z;
  ga_Generations : Z;
  ga_rng : Rand
}.

Definition set_ga_Populations (ga : GA) (pops : Populations) : GA :=
  {| ga_MakeGenome := ga_MakeGenome ga; ga_Topology := ga_Topology ga;
     ga_Model := ga_Model ga; ga_Migrator := ga_Migrator ga;
     ga_MigFrequency := ga_MigFrequency ga; ga_Logger := ga_Logger ga;
     ga_Populations := pops; ga_Best := ga_Best ga; ga_Age := ga_Age ga;
     ga_Generations := ga_Generations ga; ga_rng := ga_rng ga |}.

Definition set_ga_Best (ga : GA) (best : Individual) : GA :=
  {| ga_MakeGenome := ga_MakeGenome ga; ga_Topology := ga_Topology ga;
     ga_Model := ga_Model ga; ga_Migrator := ga_Migrator ga;
     ga_MigFrequency := ga_MigFrequency ga; ga_Logger := ga_Logger ga;
     ga_Populations := ga_Populations ga; ga_Best := best; ga_Age := ga_Age ga;
     ga_Generations := ga_Generations ga; ga_rng := ga_rng ga |}.

Definition set_ga_Age (ga : GA) (age : Z) : GA :=
  {| ga_MakeGenome := ga_MakeGenome ga; ga_Topology := ga_Topology ga;
     ga_Model := ga_Model ga; ga_Migrator := ga_Migrator ga;
     ga_MigFrequency := ga_MigFrequency ga; ga_Logger := ga_Logger ga;
     ga_Populations := ga_Populations ga; ga_Best := ga_Best ga; ga_Age := age;
     ga_Generations := ga_Generations ga; ga_rng := ga_rng ga |}.

Definition set_ga_Generations (ga : GA) (g : Z) : GA :=
  {| ga_MakeGenome := ga_MakeGenome ga; ga_Topology := ga_Topology ga;
     ga_Model := ga_Model ga; ga_Migrator := ga_Migrator ga;
     ga_MigFrequency := ga_MigFrequency ga; ga_Logger := ga_Logger ga;
     ga_Populations := ga_Populations ga; ga_Best := ga_Best ga; ga_Age := ga_Age ga;
     ga_Generations := g; ga_rng := ga_rng ga |}.

Definition set_ga_rng (ga : GA) (rng : Rand) : GA :=
  {| ga_MakeGenome := ga_MakeGenome ga; ga_Topology := ga_Topology ga;
     ga_Model := ga_Model ga; ga_Migrator := ga_Migrator ga;
     ga_MigFrequency := ga_MigFrequency ga; ga_Logger := ga_Logger ga;
     ga_Populations := ga_Populations ga; ga_Best := ga_Best ga; ga_Age := ga_Age ga;
     ga_Generations := ga_Generations ga; ga_rng := rng |}.

(** *** GA.Validate *)

Definition GA_Validate (ga : GA) : error :=
  match ga_MakeGenome ga with
  | None => Some "'GenomeMaker' cannot be nil"%string
  | Some _ =>
      match Topology_Validate (ga_Topology ga) with
      | Some topoErr => Some topoErr
      | None =>
          match ga_Model ga with
          | None => Some "'Model' cannot be nil"%string
          | Some model =>
              match Model_Validate model with
              | Some modelErr => Some modelErr
              | None =>
                  match ga_Migrator ga with
                  | Some _ =>
                      if ga_MigFrequency ga <? 1 then
                        Some "'MigFrequency' should be strictly higher than 0"%string
                      else None
                  | None => None
                  end
              end
          end
      end
  end.

(** *** GA.findBest *)

(** The loop of [findBest] over the populations still to visit, carrying
    the current [ga.Best]; [pop.Individuals[0]] panics on an empty
    population.  The assignment [ga.Best = best] copies the struct: the
    fitness of [ga.Best] is a [float64] held by value, which later work on
    the population does not reach. *)
Fixpoint findBest_loop (pops : Populations) (cur : Individual) : option Individual :=
  match pops with
  | [] => Some cur
  | pop :: rest =>
      match pop_Individuals pop with
      | [] => None
      | best :: _ =>
          findBest_loop rest
            (if SFltb (indi_Fitness best) (indi_Fitness cur) then best else cur)
      end
  end.

Definition findBest (ga : GA) : M GA :=
  match findBest_loop (ga_Populations ga) (ga_Best ga) with
  | Some best => ret (set_ga_Best ga best)
  | None => panic
  end.

(** *** Helpers of the repository that ga.go calls *)

Context {GI : GenomeI Genome}.

(** Modelled from the spec: the fitness [MakeIndividual] gives an
    individual that has not been evaluated yet (individual.go is missing).
    The spec only calls it an undefined or sentinel value, so it is left
    open here. *)
Variable unevaluated_fitness : float64.

(** Modelled from the spec: [Population.speciate] (speciation code is
    missing), which splits a population into the requested number of
    species, each one a population of its own for the Model; the spec
    leaves the partitioning scheme open. *)
Variable speciate : Population -> Z -> list Population.

(** Modelled from the spec: [MakeIndividual] (individual.go is missing)
    wraps a genome into an individual whose fitness is not evaluated. *)
Definition MakeIndividual (genome : Genome) : Individual :=
  {| indi_Genome := genome; indi_Fitness := unevaluated_fitness |}.

(** Modelled from the spec: [Individuals.Evaluate] (individuals code is
    missing) evaluates the fitness of every individual, unconditionally. *)
Definition Individuals_Evaluate (indis : Individuals) : Individuals :=
  map (fun indi => {| indi_Genome := indi_Genome indi;
                      indi_Fitness := Evaluate (indi_Genome indi) |}) indis.

(** Modelled from the spec: [Individuals.Sort] (individuals code is
    missing) sorts ascending by fitness; the comparison is Go's [<] on
    the fitness, and individuals of equal fitness keep their order. *)
Fixpoint insert_by_fitness (x : Individual) (sorted : Individuals) : Individuals :=
  match sorted with
  | [] => [x]
  | y :: rest =>
      if SFltb (indi_Fitness y) (indi_Fitness x)
      then y :: insert_by_fitness x rest
      else x :: y :: rest
  end.

Definition Individuals_Sort (indis : Individuals) : Individuals :=
  fold_right insert_by_fitness [] indis.

(** Modelled from the spec: the species' [merge] (speciation code is
    missing) concatenates the individuals of the species. *)
Definition merge (species : list Population) : Individuals :=
  concat (map pop_Individuals species).

(** Modelled from the spec: [makeIndividuals] and [makePopulation]
    (population.go is missing) construct the requested number of
    individuals through the genome factory, from the population's own
    random stream; age and generation count start at zero.  A negative
    length makes Go's [make] panic, so does a length beyond [room], the
    longest slice of individuals the allocator can provide, and so does
    calling a nil factory. *)
Fixpoint makeIndividuals (n : nat) (gm : GenomeMaker) (rng : Rand) : Individuals * Rand :=
  match n with
  | O => ([], rng)
  | S n' =>
      let (genome, rng1) := gm rng in
      let (rest, rng2) := makeIndividuals n' gm rng1 in
      (MakeIndividual genome :: rest, rng2)
  end.

Definition makePopulation (room : N) (nbrIndis : Z) (gm : option GenomeMaker) (id : nat)
           (rng : Rand) : option Population :=
  if (nbrIndis <? 0) || (Z.of_N room <? nbrIndis) then None
  else
    match gm with
    | None =>
        if nbrIndis =? 0
        then Some {| pop_Individuals := []; pop_Age := 0; pop_Generations := 0;
                     pop_ID := id; pop_rng := rng |}
        else None
    | Some mk =>
        let (indis, rng') := makeIndividuals (Z.to_nat nbrIndis) mk rng in
        Some {| pop_Individuals := indis; pop_Age := 0; pop_Generations := 0;
                pop_ID := id; pop_rng := rng' |}
    end.

(** *** Inputs from the environment *)

(** What one [Initialize] gets from its environment.  The generators
    [makeRandomNumberGenerator()] returns (they are seeded from the
    clock): the one stored in [ga.rng], the one of population [j], and the
    one the dummy best genome is drawn from.  The longest slices the
    allocator can provide in this run: [make] panics beyond them, as it
    does on a negative length.  The order in which the scheduler lets the
    goroutines issue their calls. *)
Record Entropy : Type := {
  ent_ga : Rand;
  ent_pop : nat -> Rand;
  ent_best : Rand;
  ent_max_populations : N;
  ent_max_individuals : N;
  ent_order : list nat
}.

(** What one [Enhance] gets from its environment.  What
    [time.Since(start)] reads: in the worker of population [j], and at
    the end of the call.  The order in which the scheduler lets the
    goroutines issue their calls. *)
Record Clock : Type := {
  pop_elapsed : nat -> Z;
  ga_elapsed : Z;
  clk_order : list nat
}.

(** *** GA.Initialize *)

Definition log_population (ga : GA) (j : nat) : M unit :=
  if ga_Logger ga then emit (EvLog j) else ret tt.

(** The goroutine of [Initialize] for slot [j]. *)
Definition initialize_worker (ent : Entropy) (ga : GA) (j : nat) : M Population :=
  match makePopulation (ent_max_individuals ent) (NIndividuals (ga_Topology ga))
                       (ga_MakeGenome ga) j (ent_pop ent j) with
  | None => panic
  | Some pop =>
      let pop := set_pop_Individuals pop (Individuals_Evaluate (pop_Individuals pop)) in
      let pop := set_pop_Individuals pop (Individuals_Sort (pop_Individuals pop)) in
      _ <- log_population ga j ;;
      ret pop
  end.

Definition Initialize (ent : Entropy) (ga : GA) : M GA :=
  if (NPopulations (ga_Topology ga) <? 0)
     || (Z.of_N (ent_max_populations ent) <? NPopulations (ga_Topology ga))
  then panic
  else
    let slots := seq 0 (Z.to_nat (NPopulations (ga_Topology ga))) in
    pops <- go_range (ent_order ent) slots (fun j _ => initialize_worker ent ga j) ;;
    let ga := set_ga_rng (set_ga_Populations ga pops) (ent_ga ent) in
    match ga_MakeGenome ga with
    | None => panic
    | Some mk =>
        findBest (set_ga_Best ga (MakeIndividual (fst (mk (ent_best ent)))))
    end.

(** *** GA.Enhance *)

(** [ga.Model.Apply(&pop)]; a nil Model panics. *)
Definition apply_model (ga : GA) (ev : Event) (pop : Population) : M Population :=
  match ga_Model ga with
  | None => panic
  | Some model => _ <- emit ev ;; ret (Model_Apply model pop)
  end.

(** The migration gate; the conjunction short-circuits, so the remainder
    is only computed when there are several populations and a Migrator. *)
Definition migrate (ga : GA) : M GA :=
  if (1 <? NPopulations (ga_Topology ga)) then
    match ga_Migrator ga with
    | Some migrator =>
        match int_rem (ga_Generations ga) (ga_MigFrequency ga) with
        | None => panic
        | Some r =>
            if r =? 0 then
              _ <- emit EvMigrate ;;
              let (pops, rng) := migrator (ga_Populations ga) (ga_rng ga) in
              ret (set_ga_rng (set_ga_Populations ga pops) rng)
            else ret ga
        end
    | None => ret ga
    end
  else ret ga.

(** The evolution step of the goroutine for slot [j]: through the species
    when a positive number of them is asked for, else on the population. *)
Definition evolve (ga : GA) (j : nat) (pop : Population) : M Population :=
  if 0 <? NSpecies (ga_Topology ga) then
    let species := speciate pop (NSpecies (ga_Topology ga)) in
    species <- for_range 0 species (fun k sp => apply_model ga (EvApply j (Some k)) sp) ;;
    ret (set_pop_Individuals pop (merge species))
  else
    apply_model ga (EvApply j None) pop.

(** The goroutine of [Enhance] for slot [j]. *)
Definition enhance_worker (clk : Clock) (ga : GA) (j : nat) (pop : Population) : M Population :=
  pop <- evolve ga j pop ;;
  let pop := set_pop_Individuals pop (Individuals_Evaluate (pop_Individuals pop)) in
  let pop := set_pop_Individuals pop (Individuals_Sort (pop_Individuals pop)) in
  let pop := set_pop_Age pop (wrap64 (pop_Age pop + pop_elapsed clk j)) in
  let pop := set_pop_Generations pop (wrap64 (pop_Generations pop + 1)) in
  _ <- log_population ga j ;;
  ret pop.

Definition Enhance (clk : Clock) (ga : GA) : M GA :=
  let ga := set_ga_Generations ga (wrap64 (ga_Generations ga + 1)) in
  ga <- migrate ga ;;
  pops <- go_range (clk_order clk) (ga_Populations ga) (enhance_worker clk ga) ;;
  ga <- findBest (set_ga_Populations ga pops) ;;
  ret (set_ga_Age ga (wrap64 (ga_Age ga + ga_elapsed clk))).

(** A sequence of [Enhance] calls, one per clock reading. *)
Fixpoint Enhance_seq (clks : list Clock) (ga : GA) : M GA :=
  match clks with
  | [] => ret ga
  | clk :: rest => ga' <- Enhance clk ga ;; Enhance_seq rest ga'
  end.

End Engine.

Arguments Individual : clear implicits.
Arguments Individuals : clear implicits.
Arguments Population : clear implicits.
Arguments Populations : clear implicits.
Arguments GenomeMaker : clear implicits.
Arguments Model : clear implicits.
Arguments Migrator : clear implicits.
Arguments GA : clear implicits.
Arguments Entropy : clear implicits.

(** ** Notions used in the statements *)

Section Notions.

Context {Genome Rand : Type} {GI : GenomeI Genome}.

(** The individuals at index 0 of the populations, in population order. *)
Definition first_individuals (pops : Populations Genome Rand) : list (Individual Genome) :=
  flat_map (fun pop => firstn 1 (pop_Individuals pop)) pops.

(** Ascending order of fitness on every adjacent pair. *)
Definition ascending (indis : Individuals Genome) : Prop :=
  forall (i : nat) (a b : Individual Genome),
    nth_error indis i = Some a -> nth_error indis (S i) = Some b ->
    SFleb (indi_Fitness a) (indi_Fitness b) = true.

(** Go's [<=] on the fitness of two individuals. *)
Definition fitness_le (a b : Individual Genome) : Prop :=
  SFleb (indi_Fitness a) (indi_Fitness b) = true.

(** The fitness of the individual is not NaN. *)
Definition has_number (indi : Individual Genome) : Prop :=
  is_NaN (indi_Fitness indi) = false.

(** The individual at index 0 is at least as fit as every other one. *)
Definition best_first (indis : Individuals Genome) : Prop :=
  forall first others, indis = first :: others ->
    Forall (fun indi => SFleb (indi_Fitness first) (indi_Fitness indi) = true) others.

(** The cached fitness is the one the genome evaluates to. *)
Definition evaluated (indi : Individual Genome) : Prop :=
  indi_Fitness indi = Evaluate (indi_Genome indi).

(** No genome evaluates to NaN. *)
Definition fitness_is_a_number : Prop :=
  forall genome : Genome, is_NaN (Evaluate genome) = false.

(** [m] is the minimum fitness over the given individuals. *)
Definition minimum_fitness (m : float64) (indis : list (Individual Genome)) : Prop :=
  (exists indi, In indi indis /\ indi_Fitness indi = m) /\
  (forall indi, In indi indis -> SFleb m (indi_Fitness indi) = true).

(** The gate of the migration step on generation [g]. *)
Definition migration_due (ga : GA Genome Rand) (g : Z) : Prop :=
  1 < NPopulations (ga_Topology ga) /\
  ga_Migrator ga <> None /\
  int_rem g (ga_MigFrequency ga) = Some 0.

(** The user-provided fields of two GAs coincide. *)
Definition same_settings (ga ga' : GA Genome Rand) : Prop :=
  ga_MakeGenome ga' = ga_MakeGenome ga /\
  ga_Topology ga' = ga_Topology ga /\
  ga_Model ga' = ga_Model ga /\
  ga_Migrator ga' = ga_Migrator ga /\
  ga_MigFrequency ga' = ga_MigFrequency ga /\
  ga_Logger ga' = ga_Logger ga.

(** Contract of a Model that only works on the individuals: it leaves
    the generation count of the population alone. *)
Definition model_keeps_generations (model : Model Genome Rand) : Prop :=
  forall pop, pop_Generations (Model_Apply model pop) = pop_Generations pop.

(** Contract of a Migrator that only moves individuals: populations that
    all are at generation [g] still are after the migration. *)
Definition migrator_keeps_generations (migrator : Migrator Genome Rand) : Prop :=
  forall pops rng g,
    Forall (fun pop => pop_Generations pop = g) pops ->
    Forall (fun pop => pop_Generations pop = g) (fst (migrator pops rng)).

End Notions.

(** ** A concrete engine

    Genomes are integers that evaluate to themselves, the random
    generators are counters, the Model decreases every genome by one. *)

Module Demo.

(** The binary64 value of an integer of at most 53 bits: the mantissa is
    shifted up to 53 bits.  Larger integers saturate to infinity. *)
Definition normal (sign : bool) (p : positive) : float64 :=
  let digits := Z.pos (digits2_pos p) in
  if digits <=? 53
  then S754_finite sign (Pos.shiftl p (Z.to_N (53 - digits))) (digits - 53)
  else S754_infinity sign.

Definition fitness_of_Z (z : Z) : float64 :=
  match z with
  | Z0 => pos_zero
  | Zpos p => normal false p
  | Zneg p => normal true p
  end.

Definition genome_value : GenomeI Z := {| Evaluate := fitness_of_Z |}.

(** Genomes that all evaluate to positive infinity. *)
Definition genome_worst : GenomeI Z := {| Evaluate := fun _ => pos_inf |}.

Definition MakeGenome : GenomeMaker Z Z := fun rng => (rng, rng - 1).

Definition decrease : Model Z Z :=
  {| Model_Apply := fun pop =>
       set_pop_Individuals pop
         (map (fun indi => {| indi_Genome := indi_Genome indi - 1;
                              indi_Fitness := indi_Fitness indi |})
              (pop_Individuals pop));
     Model_Validate := None |}.

Definition swap_ends : Migrator Z Z := fun pops rng => (rev pops, rng + 1).

(** Contiguous chunks of [size] individuals, [n] of them. *)
Fixpoint chunks (n : nat) (size : nat) (indis : Individuals Z) : list (Individuals Z) :=
  match n with
  | O => []
  | S O => [indis]
  | S n' => firstn size indis :: chunks n' size (skipn size indis)
  end.

Definition speciate (pop : Population Z Z) (n : Z) : list (Population Z Z) :=
  map (set_pop_Individuals pop)
      (chunks (Z.to_nat n) (length (pop_Individuals pop) / Z.to_nat n) (pop_Individuals pop)).

Definition entropy : Entropy Z :=
  {| ent_ga := 0; ent_pop := fun j => 10 * (Z.of_nat j + 2); ent_best := 100;
     ent_max_populations := 1000; ent_max_individuals := 1000;
     ent_order := [] |}.

Definition clock : Clock :=
  {| pop_elapsed := fun _ => 3; ga_elapsed := 5; clk_order := [] |}.

(** A GA as the user builds it: runtime fields at their zero values. *)
Definition new_GA (topo : Topology) (migrator : option (Migrator Z Z)) (freq : Z) : GA Z Z :=
  {| ga_MakeGenome := Some MakeGenome;
     ga_Topology := topo;
     ga_Model := Some decrease;
     ga_Migrator := migrator;
     ga_MigFrequency := freq;
     ga_Logger := false;
     ga_Populations := [];
     ga_Best := {| indi_Genome := 0; indi_Fitness := pos_zero |};
     ga_Age := 0;
     ga_Generations := 0;
     ga_rng := 0 |}.

(** Two populations of five individuals, no species, no migration. *)
Definition ga_2x5 : GA Z Z :=
  new_GA {| NPopulations := 2; NSpecies := 0; NIndividuals := 5 |} None 0.

(** Two populations of five individuals in two species, migrating at
    every second generation. *)
Definition ga_species : GA Z Z :=
  new_GA {| NPopulations := 2; NSpecies := 2; NIndividuals := 5 |} (Some swap_ends) 2.

(** The result of a computation that returns. *)
Definition the {A : Type} (m : M A) (default : A) : A :=
  match result_of m with Some a => a | None => default end.

Definition initialized (GI : GenomeI Z) (sentinel : float64) (ga : GA Z Z) : GA Z Z :=
  the (@Initialize Z Z GI sentinel entropy ga) ga.

Definition evolved (n : nat) (ga : GA Z Z) : GA Z Z :=
  the (@Enhance_seq Z Z genome_value speciate (repeat clock n) ga) ga.

Definition individual (genome : Z) : Individual Z :=
  {| indi_Genome := genome; indi_Fitness := fitness_of_Z genome |}.

End Demo.

(** ** Further notions *)

Section MoreNotions.

Context {Genome Rand : Type}.

Definition is_log (e : Event) : bool :=
  match e with EvLog _ => true | _ => false end.

(** What the worker of slot [j] hands to the logger. *)
Definition log_trace (logger : bool) (j : nat) : list Event :=
  if logger then [EvLog j] else [].

(** The population has an individual at index 0. *)
Definition populated (pop : Population Genome Rand) : Prop :=
  pop_Individuals pop <> [].

(** The fields [Initialize] writes. *)
Definition runtime_fields (ga : GA Genome Rand)
  : Populations Genome Rand * Individual Genome * Rand :=
  (ga_Populations ga, ga_Best ga, ga_rng ga).

(** Contract of a Migrator that keeps every population populated. *)
Definition migrator_keeps_populated (migrator : Migrator Genome Rand) : Prop :=
  forall pops rng, Forall populated pops -> Forall populated (fst (migrator pops rng)).

(** Contract of a Migrator that works on the slots of the slice it is
    handed, as a Go callee has to: it cannot change the length. *)
Definition migrator_keeps_length (migrator : Migrator Genome Rand) : Prop :=
  forall pops rng, length (fst (migrator pops rng)) = length pops.

(** The goroutine an event is issued by: the worker of a slot for the
    calls to the Model and the starts of the logger, none for the call to
    the Migrator, which the caller of [Enhance] makes itself. *)
Definition slot_of (e : Event) : option nat :=
  match e with
  | EvMigrate => None
  | EvApply j _ => Some j
  | EvLog j => Some j
  end.

Definition in_slot (j : nat) (e : Event) : bool :=
  match slot_of e with
  | Some k => Nat.eqb k j
  | None => false
  end.

End MoreNotions.

Module Demo_edge.

(** [ga] without a genome factory. *)
Definition without_MakeGenome (ga : GA Z Z) : GA Z Z :=
  {| ga_MakeGenome := None; ga_Topology := ga_Topology ga;
     ga_Model := ga_Model ga; ga_Migrator := ga_Migrator ga;
     ga_MigFrequency := ga_MigFrequency ga; ga_Logger := ga_Logger ga;
     ga_Populations := ga_Populations ga; ga_Best := ga_Best ga; ga_Age := ga_Age ga;
     ga_Generations := ga_Generations ga; ga_rng := ga_rng ga |}.

(** [ga] without a Model. *)
Definition without_Model (ga : GA Z Z) : GA Z Z :=
  {| ga_MakeGenome := ga_MakeGenome ga; ga_Topology := ga_Topology ga;
     ga_Model := None; ga_Migrator := ga_Migrator ga;
     ga_MigFrequency := ga_MigFrequency ga; ga_Logger := ga_Logger ga;
     ga_Populations := ga_Populations ga; ga_Best := ga_Best ga; ga_Age := ga_Age ga;
     ga_Generations := ga_Generations ga; ga_rng := ga_rng ga |}.

(** [ga] with a logger. *)
Definition with_Logger (ga : GA Z Z) : GA Z Z :=
  {| ga_MakeGenome := ga_MakeGenome ga; ga_Topology := ga_Topology ga;
     ga_Model := ga_Model ga; ga_Migrator := ga_Migrator ga;
     ga_MigFrequency := ga_MigFrequency ga; ga_Logger := true;
     ga_Populations := ga_Populations ga; ga_Best := ga_Best ga; ga_Age := ga_Age ga;
     ga_Generations := ga_Generations ga; ga_rng := ga_rng ga |}.

(** Two populations, a Migrator and a zero migration frequency. *)
Definition ga_zero_frequency : GA Z Z :=
  Demo.new_GA {| NPopulations := 2; NSpecies := 0; NIndividuals := 5 |}
              (Some Demo.swap_ends) 0.

(** Two populations without species, migrating at every second generation. *)
Definition ga_migrating : GA Z Z :=
  Demo.new_GA {| NPopulations := 2; NSpecies := 0; NIndividuals := 5 |}
              (Some Demo.swap_ends) 2.

(** The populations [Initialize] sets up for [Demo.ga_2x5]. *)
Definition two_populations : Populations Z Z :=
  ga_Populations (Demo.initialized Demo.genome_value pos_inf Demo.ga_2x5).

(** [Demo.ga_2x5] after [Initialize], and the same GA with a given
    individual in [Best]. *)
Definition scanned : GA Z Z := Demo.initialized Demo.genome_value pos_inf Demo.ga_2x5.

Definition with_Best (ga : GA Z Z) (genome : Z) (fitness : float64) : GA Z Z :=
  set_ga_Best ga {| indi_Genome := genome; indi_Fitness := fitness |}.

(** [ga_migrating] after [Initialize]. *)
Definition migrating : GA Z Z := Demo.initialized Demo.genome_value pos_inf ga_migrating.

(** One population and no individual. *)
Definition ga_no_individual : GA Z Z :=
  Demo.new_GA {| NPopulations := 1; NSpecies := 0; NIndividuals := 0 |} None 0.

(** What a run leaves: its trace and the GA it returns. *)
Definition run (m : M (GA Z Z)) (default : GA Z Z) : list Event * option (GA Z Z) :=
  (trace_of m, Some (Demo.the m default)).

(** Genomes that evaluate to themselves, but for 17, which evaluates to
    NaN. *)
Definition genome_with_NaN : GenomeI Z :=
  {| Evaluate := fun z => if z =? 17 then NaN else Demo.fitness_of_Z z |}.



(** The environment of [Demo.entropy] and the clock of [Demo.clock] with
    a scheduler that lets the goroutine of slot 1 go first. *)
Definition entropy_reordered : Entropy Z :=
  {| ent_ga := 0; ent_pop := fun j => 10 * (Z.of_nat j + 2); ent_best := 100;
     ent_max_populations := 1000; ent_max_individuals := 1000;
     ent_order := [1%nat] |}.

Definition clock_reordered : Clock :=
  {| pop_elapsed := fun _ => 3; ga_elapsed := 5; clk_order := [1%nat; 1%nat; 0%nat] |}.

End Demo_edge.

(** * Properties *)

(** ** Comparison of float64 values *)

Lemma SFcompare_swap (a b : float64) :
  SFcompare b a = option_map CompOpp (SFcompare a b).
Proof.
  destruct a as [[]|[]| |[] m1 e1], b as [[]|[]| |[] m2 e2]; simpl; try reflexivity.
  - rewrite (Z.compare_antisym e1 e2).
    destruct (e1 ?= e2); simpl; try reflexivity.
    rewrite (Pos.compare_cont_antisym m1 m2 Eq). reflexivity.
  - rewrite (Z.compare_antisym e1 e2).
    destruct (e1 ?= e2); simpl; try reflexivity.
    rewrite (Pos.compare_cont_antisym m1 m2 Eq). simpl. reflexivity.
Qed.

Lemma SFltb_irrefl (a : float64) : SFltb a a = false.
Proof.
  unfold SFltb.
  destruct a as [[]|[]| |[] m e]; simpl; try reflexivity;
    rewrite Z.compare_refl; change (Pos.compare_cont Eq m m) with (Pos.compare m m);
    rewrite Pos.compare_refl; reflexivity.
Qed.

Lemma SFltb_asym (a b : float64) : SFltb a b = true -> SFltb b a = false.
Proof.
  unfold SFltb. rewrite (SFcompare_swap a b).
  destruct (SFcompare a b) as [[]|]; simpl; congruence.
Qed.

Lemma SFltb_trans (a b c : float64) :
  SFltb a b = true -> SFltb b c = true -> SFltb a c = true.
Proof.
  unfold SFltb.
  destruct a as [[]|[]| |[] m1 e1], b as [[]|[]| |[] m2 e2], c as [[]|[]| |[] m3 e3];
    simpl; try congruence;
    change (Pos.compare_cont Eq) with Pos.compare;
    destruct (Z.compare_spec e1 e2), (Z.compare_spec e2 e3), (Z.compare_spec e1 e3);
    try congruence; try lia; subst;
    destruct (Pos.compare_spec m1 m2), (Pos.compare_spec m2 m3), (Pos.compare_spec m1 m3);
    simpl; try congruence; try lia.
Qed.

Lemma SFltb_not_NaN (a b : float64) :
  SFltb a b = true -> is_NaN a = false /\ is_NaN b = false.
Proof.
  unfold SFltb.
  destruct a as [[]|[]| |[] m1 e1], b as [[]|[]| |[] m2 e2]; simpl; intuition congruence.
Qed.

Lemma SFcompare_defined (a b : float64) :
  is_NaN a = false -> is_NaN b = false -> exists c, SFcompare a b = Some c.
Proof.
  destruct a as [[]|[]| |[] m1 e1], b as [[]|[]| |[] m2 e2]; simpl; try congruence; eauto.
Qed.

Lemma SFleb_of_not_ltb (a b : float64) :
  is_NaN a = false -> is_NaN b = false -> SFltb a b = false -> SFleb b a = true.
Proof.
  intros Ha Hb. unfold SFltb, SFleb. rewrite (SFcompare_swap a b).
  destruct (SFcompare_defined a b Ha Hb) as [c ->]. destruct c; simpl; congruence.
Qed.

Lemma SFltb_leb (a b : float64) : SFltb a b = true -> SFleb a b = true.
Proof.
  unfold SFltb, SFleb. destruct (SFcompare a b) as [[]|]; congruence.
Qed.

Lemma SFleb_not_ltb_eqb (a b : float64) :
  SFleb a b = true -> SFltb a b = false -> SFeqb a b = true.
Proof.
  unfold SFltb, SFleb, SFeqb. destruct (SFcompare a b) as [[]|]; congruence.
Qed.

Lemma SFeqb_sym (a b : float64) : SFeqb a b = SFeqb b a.
Proof.
  unfold SFeqb. rewrite (SFcompare_swap a b).
  destruct (SFcompare a b) as [[]|]; reflexivity.
Qed.

Lemma SFleb_trans (a b c : float64) :
  SFleb a b = true -> SFleb b c = true -> SFleb a c = true.
Proof.
  unfold SFleb.
  destruct a as [[]|[]| |[] m1 e1], b as [[]|[]| |[] m2 e2], c as [[]|[]| |[] m3 e3];
    simpl; try congruence;
    change (Pos.compare_cont Eq) with Pos.compare;
    destruct (Z.compare_spec e1 e2), (Z.compare_spec e2 e3), (Z.compare_spec e1 e3);
    try congruence; try lia; subst;
    destruct (Pos.compare_spec m1 m2), (Pos.compare_spec m2 m3), (Pos.compare_spec m1 m3);
    simpl; try congruence; try lia.
Qed.

(** ** Machine integers *)

Lemma wrap64_small (z : Z) : min_int <= z <= max_int -> wrap64 z = z.
Proof.
  unfold wrap64, min_int, max_int. intros H.
  rewrite Z.mod_small; lia.
Qed.

(** ** The effect monad *)

Lemma bind_returns {A B : Type} (m : M A) (k : A -> M B) (tr : list Event) (b : B) :
  bind m k = (tr, Some b) ->
  exists tr1 a tr2, m = (tr1, Some a) /\ k a = (tr2, Some b) /\ tr = tr1 ++ tr2.
Proof.
  unfold bind. destruct m as [tr1 [a|]]; [|discriminate].
  destruct (k a) as [tr2 r] eqn:Hk. intros H. inversion H; subst.
  exists tr1, a, tr2. auto.
Qed.

Lemma trace_bind {A B : Type} (m : M A) (k : A -> M B) :
  trace_of (bind m k) =
  trace_of m ++ match result_of m with Some a => trace_of (k a) | None => [] end.
Proof.
  unfold bind, trace_of, result_of. destruct m as [tr [a|]]; simpl.
  - destruct (k a); reflexivity.
  - rewrite app_nil_r. reflexivity.
Qed.

Lemma migrations_app (tr1 tr2 : list Event) :
  migrations (tr1 ++ tr2) = (migrations tr1 + migrations tr2)%nat.
Proof.
  unfold migrations. rewrite filter_app, length_app. reflexivity.
Qed.

Lemma for_range_returns {A B : Type} (f : nat -> A -> M B) (l : list A) :
  forall (j0 : nat) (tr : list Event) (bs : list B),
    for_range j0 l f = (tr, Some bs) ->
    Forall2 (fun a b => exists j tr', f j a = (tr', Some b)) l bs.
Proof.
  induction l as [|a rest IH]; simpl; intros j0 tr bs H.
  - inversion H. constructor.
  - apply bind_returns in H. destruct H as (tr1 & b & tr2 & Hf & H & _).
    apply bind_returns in H. destruct H as (tr3 & bs' & tr4 & Hrest & H & _).
    inversion H; subst. constructor; eauto.
Qed.

Lemma for_range_total {A B : Type} (f : nat -> A -> M B) (l : list A) :
  (forall j a, In a l -> result_of (f j a) <> None) ->
  forall j0, result_of (for_range j0 l f) <> None.
Proof.
  induction l as [|a rest IH]; simpl; intros Hf j0.
  - discriminate.
  - unfold bind at 1. specialize (Hf j0 a (or_introl eq_refl)) as Ha.
    destruct (f j0 a) as [tr1 [b|]]; [|exfalso; apply Ha; reflexivity].
    specialize (IH (fun j x Hx => Hf j x (or_intror Hx)) (S j0)).
    unfold bind. destruct (for_range (S j0) rest f) as [tr2 [bs|]];
      [|exfalso; apply IH; reflexivity].
    simpl. discriminate.
Qed.

Lemma for_range_no_migration {A B : Type} (f : nat -> A -> M B) (l : list A) :
  (forall j a, migrations (trace_of (f j a)) = 0%nat) ->
  forall j0, migrations (trace_of (for_range j0 l f)) = 0%nat.
Proof.
  intros Hf. induction l as [|a rest IH]; simpl; intros j0.
  - reflexivity.
  - rewrite trace_bind, migrations_app, Hf. simpl.
    destruct (result_of (f j0 a)); [|reflexivity].
    rewrite trace_bind, migrations_app, IH. simpl.
    destruct (result_of (for_range (S j0) rest f)); reflexivity.
Qed.

(** ** Goroutines *)

Lemma result_bind {A B : Type} (m : M A) (k : A -> M B) :
  result_of (bind m k) =
  match result_of m with Some a => result_of (k a) | None => None end.
Proof.
  unfold bind, result_of. destruct m as [tr [a|]]; simpl; [|reflexivity].
  destruct (k a); reflexivity.
Qed.

Lemma drain_go_runs {A B : Type} (f : nat -> A -> M B) (l : list A) :
  forall j0, drain (go_runs j0 l f) = for_range j0 l f.
Proof.
  induction l as [|a rest IH]; simpl; intros j0; [reflexivity|].
  rewrite IH. reflexivity.
Qed.

Lemma drain_result {B : Type} (runs : list (M B)) (bs : list B) :
  result_of (drain runs) = Some bs <-> map result_of runs = map Some bs.
Proof.
  revert bs. induction runs as [|run rest IH]; intros bs.
  - simpl. split; intros H.
    + inversion H. reflexivity.
    + destruct bs; [reflexivity | discriminate].
  - cbn [drain map]. rewrite result_bind.
    destruct (result_of run) as [b|].
    + rewrite result_bind.
      destruct (result_of (drain rest)) as [bs'|] eqn:Hrest; simpl.
      * split; intros H.
        -- inversion H; subst. simpl. f_equal. apply IH. reflexivity.
        -- destruct bs as [|b' bs'']; [discriminate|]. simpl in H. inversion H; subst.
           f_equal. f_equal. apply IH in H2. congruence.
      * split; [discriminate|]. intros H.
        destruct bs as [|b' bs'']; [discriminate|]. simpl in H. inversion H; subst.
        apply IH in H2. discriminate.
    + split; [discriminate|]. intros H. destruct bs; discriminate.
Qed.

Lemma drain_result_ext {B : Type} (runs runs' : list (M B)) :
  map result_of runs' = map result_of runs ->
  result_of (drain runs') = result_of (drain runs).
Proof.
  intros Hmap.
  destruct (result_of (drain runs)) as [bs|] eqn:H.
  - apply drain_result. rewrite Hmap. apply drain_result. exact H.
  - destruct (result_of (drain runs')) as [bs'|] eqn:H'; [|reflexivity].
    apply drain_result in H'. rewrite Hmap in H'. apply drain_result in H'. congruence.
Qed.

Lemma set_slot_results {B : Type} (runs : list (M B)) :
  forall (j : nat) (e : Event) (calls : list Event) (r : option B),
    nth_error runs j = Some (e :: calls, r) ->
    map result_of (set_slot j (calls, r) runs) = map result_of runs.
Proof.
  induction runs as [|run rest IH]; intros [|j] e calls r H; simpl in *; try discriminate.
  - inversion H; subst. reflexivity.
  - f_equal. eapply IH; eauto.
Qed.

Lemma drain_panics {B : Type} (runs : list (M B)) :
  forall (j : nat) (tr : list Event),
    nth_error runs j = Some (tr, None) -> result_of (drain runs) = None.
Proof.
  induction runs as [|run rest IH]; intros [|j] tr H; simpl in H; try discriminate;
    cbn [drain]; rewrite result_bind.
  - inversion H; subst. reflexivity.
  - destruct (result_of run); [|reflexivity].
    rewrite result_bind, (IH j tr H). reflexivity.
Qed.

(** What the goroutines leave in the slots, and whether one of them
    panics, does not depend on the scheduling. *)
Lemma interleave_result {B : Type} (order : list nat) :
  forall runs : list (M B),
    result_of (interleave order runs) = result_of (drain runs).
Proof.
  induction order as [|j order' IH]; intros runs; simpl; [reflexivity|].
  destruct (nth_error runs j) as [[[|e calls] [b|]]|] eqn:Hj; try apply IH.
  - symmetry. eapply drain_panics; eauto.
  - specialize (IH (set_slot j (calls, Some b) runs)).
    destruct (interleave order' _) as [tr rs]. simpl in *. rewrite IH.
    apply drain_result_ext. eapply set_slot_results; eauto.
  - specialize (IH (set_slot j (calls, None) runs)).
    destruct (interleave order' _) as [tr rs]. simpl in *. rewrite IH.
    apply drain_result_ext. eapply set_slot_results; eauto.
Qed.

Lemma go_range_result {A B : Type} (order : list nat) (f : nat -> A -> M B) (l : list A) :
  result_of (go_range order l f) = result_of (for_range 0 l f).
Proof. unfold go_range. rewrite interleave_result, drain_go_runs. reflexivity. Qed.

Lemma go_range_returns {A B : Type} (order : list nat) (f : nat -> A -> M B) (l : list A)
      (tr : list Event) (bs : list B) :
  go_range order l f = (tr, Some bs) ->
  exists tr', for_range 0 l f = (tr', Some bs).
Proof.
  intros H. pose proof (go_range_result order f l) as Hr. rewrite H in Hr. simpl in Hr.
  destruct (for_range 0 l f) as [tr' r]. simpl in Hr. subst r. eauto.
Qed.

Lemma go_range_total {A B : Type} (order : list nat) (f : nat -> A -> M B) (l : list A) :
  (forall j a, In a l -> result_of (f j a) <> None) ->
  result_of (go_range order l f) <> None.
Proof. intros Hf. rewrite go_range_result. apply for_range_total. exact Hf. Qed.

Lemma set_slot_Forall {A : Type} (P : A -> Prop) (l : list A) :
  forall (j : nat) (x : A), Forall P l -> P x -> Forall P (set_slot j x l).
Proof.
  induction l as [|a rest IH]; intros [|j] x Hl Hx; simpl; auto;
    inversion Hl; subst; constructor; auto.
Qed.

Lemma nth_error_Forall {A : Type} (P : A -> Prop) (l : list A) (j : nat) (x : A) :
  Forall P l -> nth_error l j = Some x -> P x.
Proof.
  intros Hl Hj. apply nth_error_In in Hj. rewrite Forall_forall in Hl. auto.
Qed.

Lemma drain_no_migration {B : Type} (runs : list (M B)) :
  Forall (fun run => migrations (trace_of run) = 0%nat) runs ->
  migrations (trace_of (drain runs)) = 0%nat.
Proof.
  induction 1 as [|run rest Hrun _ IH]; [reflexivity|].
  cbn [drain]. rewrite trace_bind, migrations_app, Hrun. simpl.
  destruct (result_of run); [|reflexivity].
  rewrite trace_bind, migrations_app, IH. simpl.
  destruct (result_of (drain rest)); reflexivity.
Qed.

Lemma interleave_no_migration {B : Type} (order : list nat) :
  forall runs : list (M B),
    Forall (fun run => migrations (trace_of run) = 0%nat) runs ->
    migrations (trace_of (interleave order runs)) = 0%nat.
Proof.
  induction order as [|j order' IH]; intros runs Hruns; simpl;
    [apply drain_no_migration; exact Hruns|].
  destruct (nth_error runs j) as [[[|e calls] r]|] eqn:Hj.
  - destruct r; [apply IH; exact Hruns | reflexivity].
  - pose proof (nth_error_Forall _ _ _ _ Hruns Hj) as He. simpl in He.
    change (e :: calls) with ([e] ++ calls) in He. rewrite migrations_app in He.
    assert (Hcalls : migrations calls = 0%nat) by lia.
    assert (Hhead : migrations [e] = 0%nat) by lia.
    specialize (IH (set_slot j (calls, r) runs)
                   (set_slot_Forall (fun run => migrations (trace_of run) = 0%nat)
                      runs j (calls, r) Hruns Hcalls)).
    destruct (interleave order' _) as [tr rs]. simpl in *.
    change (e :: tr) with ([e] ++ tr). rewrite migrations_app, Hhead, IH. reflexivity.
  - apply IH. exact Hruns.
Qed.

Lemma go_runs_Forall {A B : Type} (P : M B -> Prop) (f : nat -> A -> M B) (l : list A) :
  (forall j a, P (f j a)) -> forall j0, Forall P (go_runs j0 l f).
Proof.
  intros Hf. induction l as [|a rest IH]; simpl; intros j0; constructor; auto.
Qed.

Lemma go_range_no_migration {A B : Type} (order : list nat) (f : nat -> A -> M B)
      (l : list A) :
  (forall j a, migrations (trace_of (f j a)) = 0%nat) ->
  migrations (trace_of (go_range order l f)) = 0%nat.
Proof.
  intros Hf. unfold go_range. apply interleave_no_migration.
  apply go_runs_Forall. exact Hf.
Qed.

Lemma go_runs_ext {A B : Type} (f f' : nat -> A -> M B) (l : list A) :
  (forall j a, f j a = f' j a) -> forall j0, go_runs j0 l f = go_runs j0 l f'.
Proof.
  intros Hf. induction l as [|a rest IH]; simpl; intros j0; [reflexivity|].
  rewrite Hf, IH. reflexivity.
Qed.

(** ** Validation *)

Lemma Topology_Validate_cases (topo : Topology) :
  Topology_Validate topo <> None <->
  NPopulations topo < 1 \/ NSpecies topo < 0 \/ NIndividuals topo < 1.
Proof.
  unfold Topology_Validate.
  destruct (Z.ltb_spec (NPopulations topo) 1);
    destruct (Z.ltb_spec (NSpecies topo) 0);
    destruct (Z.ltb_spec (NIndividuals topo) 1);
    split; intros H'; try discriminate; try lia; try congruence.
Qed.


(** C6: [Topology.Validate] is total (it returns, it cannot panic) and
    returns an error exactly when [NPopulations < 1], [NSpecies < 0] or
    [NIndividuals < 1]; it rejects {0, 0, 1} and accepts {1, 0, 1}. *)
Theorem Topology_Validate_error_iff :
  (forall topo : Topology,
      Topology_Validate topo <> None <->
      NPopulations topo < 1 \/ NSpecies topo < 0 \/ NIndividuals topo < 1) /\
  Topology_Validate {| NPopulations := 0; NSpecies := 0; NIndividuals := 1 |} <> None /\
  Topology_Validate {| NPopulations := 1; NSpecies := 0; NIndividuals := 1 |} = None.
Proof.
  split; [exact Topology_Validate_cases | split; [discriminate | reflexivity]].
Qed.

Section Properties.

Context {Genome Rand : Type} {GI : GenomeI Genome}.

Implicit Types (ga : GA Genome Rand) (pop : Population Genome Rand).
Implicit Types (pops : Populations Genome Rand) (indis : Individuals Genome).

(** C7: [GA.Validate] checks, in this order, the genome factory, the
    topology, the presence of the Model, the Model's own validation and
    the migration frequency when a Migrator is set; it returns the error
    of the first check that fails, and nil exactly when none does.  A
    Migrator with a zero frequency is always rejected. *)
Theorem GA_Validate_order : forall ga : GA Genome Rand,
  (ga_MakeGenome ga = None ->
     GA_Validate ga = Some "'GenomeMaker' cannot be nil"%string) /\
  (ga_MakeGenome ga <> None ->
     forall topoErr, Topology_Validate (ga_Topology ga) = Some topoErr ->
     GA_Validate ga = Some topoErr) /\
  (ga_MakeGenome ga <> None -> Topology_Validate (ga_Topology ga) = None ->
     ga_Model ga = None ->
     GA_Validate ga = Some "'Model' cannot be nil"%string) /\
  (ga_MakeGenome ga <> None -> Topology_Validate (ga_Topology ga) = None ->
     forall model modelErr,
       ga_Model ga = Some model -> Model_Validate model = Some modelErr ->
       GA_Validate ga = Some modelErr) /\
  (ga_MakeGenome ga <> None -> Topology_Validate (ga_Topology ga) = None ->
     forall model,
       ga_Model ga = Some model -> Model_Validate model = None ->
       ga_Migrator ga <> None -> ga_MigFrequency ga < 1 ->
       GA_Validate ga = Some "'MigFrequency' should be strictly higher than 0"%string) /\
  (ga_MakeGenome ga <> None -> Topology_Validate (ga_Topology ga) = None ->
     forall model,
       ga_Model ga = Some model -> Model_Validate model = None ->
       ga_Migrator ga = None \/ 1 <= ga_MigFrequency ga ->
       GA_Validate ga = None) /\
  (ga_Migrator ga <> None -> ga_MigFrequency ga = 0 -> GA_Validate ga <> None).
Proof.
  intros ga. unfold GA_Validate.
  destruct (ga_MakeGenome ga) as [mk|];
    destruct (Topology_Validate (ga_Topology ga)) as [topoErr|];
    destruct (ga_Model ga) as [model|];
    try destruct (Model_Validate model) as [modelErr|] eqn:Hmodel;
    destruct (ga_Migrator ga) as [migrator|];
    destruct (Z.ltb_spec (ga_MigFrequency ga) 1);
    repeat split; intros;
      repeat match goal with
        | H : Some _ = Some _ |- _ => inversion H; subst; clear H
        | H : _ \/ _ |- _ => destruct H
        end;
      try congruence; try lia.
Qed.

(** ** The scan for the best individual *)

Lemma findBest_loop_spec pops :
  forall cur best : Individual Genome,
    findBest_loop pops cur = Some best ->
    (best = cur \/
     (In best (first_individuals pops) /\
      SFltb (indi_Fitness best) (indi_Fitness cur) = true)) /\
    (forall f, In f (first_individuals pops) ->
               SFltb (indi_Fitness f) (indi_Fitness best) = false).
Proof.
  induction pops as [|pop rest IH]; simpl; intros cur best H.
  - inversion H; subst. split; [auto | intros f []].
  - destruct (pop_Individuals pop) as [|first others] eqn:Hpop; [discriminate|].
    simpl. apply IH in H. destruct H as [Hbest Hmin].
    destruct (SFltb (indi_Fitness first) (indi_Fitness cur)) eqn:Hlt.
    + split.
      * destruct Hbest as [->|[Hin Hlt']]; right; split; auto.
        eapply SFltb_trans; eauto.
      * intros f [<-|Hin]; [|auto].
        destruct Hbest as [->|[_ Hlt']];
          [apply SFltb_irrefl | apply SFltb_asym; exact Hlt'].
    + split.
      * destruct Hbest as [->|[Hin Hlt']]; auto.
      * intros f [<-|Hin]; [|auto].
        destruct Hbest as [->|[_ Hlt']]; [exact Hlt|].
        destruct (SFltb (indi_Fitness first) (indi_Fitness best)) eqn:Hfb; [|reflexivity].
        rewrite (SFltb_trans _ _ _ Hfb Hlt') in Hlt. discriminate.
Qed.

Lemma findBest_loop_total pops :
  Forall (fun pop => pop_Individuals pop <> []) pops ->
  forall cur, findBest_loop pops cur <> None.
Proof.
  induction 1 as [|pop rest Hpop _ IH]; simpl; intros cur.
  - discriminate.
  - destruct (pop_Individuals pop); [congruence | apply IH].
Qed.

Lemma findBest_returns ga (tr : list Event) ga' :
  findBest ga = (tr, Some ga') ->
  exists best, findBest_loop (ga_Populations ga) (ga_Best ga) = Some best /\
               ga' = set_ga_Best ga best /\ tr = [].
Proof.
  unfold findBest. destruct (findBest_loop _ _) as [best|]; [|discriminate].
  intros H. inversion H; subst. eauto.
Qed.

(** ** Inversion of the steps of [Enhance] *)

Lemma migrate_returns ga (tr : list Event) ga1 :
  migrate ga = (tr, Some ga1) ->
  same_settings ga ga1 /\
  ga_Best ga1 = ga_Best ga /\
  ga_Age ga1 = ga_Age ga /\
  ga_Generations ga1 = ga_Generations ga /\
  (ga_Populations ga1 = ga_Populations ga \/
   exists migrator, ga_Migrator ga = Some migrator /\
     ga_Populations ga1 = fst (migrator (ga_Populations ga) (ga_rng ga))).
Proof.
  unfold migrate, same_settings.
  destruct (1 <? NPopulations (ga_Topology ga));
    [destruct (ga_Migrator ga) as [migrator|] eqn:Hmig;
     [destruct (int_rem _ _) as [r|]; [destruct (r =? 0)|]|]|];
    simpl; try discriminate;
    try (intros H; inversion H; subst; clear H; tauto).
  destruct (migrator (ga_Populations ga) (ga_rng ga)) as [pops rng] eqn:Happly.
  simpl. intros H; inversion H; subst; clear H. simpl.
  repeat split; auto. right. exists migrator. rewrite Happly. auto.
Qed.

Lemma Enhance_returns (speciate : Population Genome Rand -> Z -> list (Population Genome Rand))
      (clk : Clock) ga (tr : list Event) ga' :
  Enhance speciate clk ga = (tr, Some ga') ->
  exists ga1 pops best tr1 tr2,
    migrate (set_ga_Generations ga (wrap64 (ga_Generations ga + 1))) = (tr1, Some ga1) /\
    for_range 0 (ga_Populations ga1) (enhance_worker speciate clk ga1) = (tr2, Some pops) /\
    findBest_loop pops (ga_Best ga) = Some best /\
    ga' = set_ga_Age (set_ga_Best (set_ga_Populations ga1 pops) best)
                     (wrap64 (ga_Age ga + ga_elapsed clk)) /\
    exists tr3,
      tr = tr1 ++ tr3 /\
      go_range (clk_order clk) (ga_Populations ga1) (enhance_worker speciate clk ga1)
        = (tr3, Some pops).
Proof.
  unfold Enhance. intros H.
  apply bind_returns in H. destruct H as (tr1 & ga1 & tr' & Hmig & H & ->).
  apply bind_returns in H. destruct H as (tr3 & pops & tr'' & Hpops & H & ->).
  apply bind_returns in H. destruct H as (tr5 & ga2 & tr4 & Hbest & H & ->).
  apply findBest_returns in Hbest. destruct Hbest as (best & Hloop & -> & ->).
  inversion H; subst; clear H. simpl in *.
  destruct (migrate_returns _ _ _ Hmig) as (_ & HB & HA & _).
  simpl in HB, HA. rewrite HB in Hloop. rewrite HA.
  destruct (go_range_returns _ _ _ _ _ Hpops) as (tr2 & Hseq).
  exists ga1, pops, best, tr1, tr2. rewrite !app_nil_r.
  repeat split; auto. exists tr3. auto.
Qed.

Lemma Initialize_returns (sentinel : float64) (ent : Entropy Rand) ga (tr : list Event) ga' :
  Initialize sentinel ent ga = (tr, Some ga') ->
  exists mk pops best,
    ga_MakeGenome ga = Some mk /\
    0 <= NPopulations (ga_Topology ga) <= Z.of_N (ent_max_populations ent) /\
    for_range 0 (seq 0 (Z.to_nat (NPopulations (ga_Topology ga))))
              (fun j _ => initialize_worker sentinel ent ga j)
      = (trace_of (for_range 0 (seq 0 (Z.to_nat (NPopulations (ga_Topology ga))))
                     (fun j _ => initialize_worker sentinel ent ga j)), Some pops) /\
    findBest_loop pops (MakeIndividual sentinel (fst (mk (ent_best ent)))) = Some best /\
    ga' = set_ga_Best (set_ga_rng (set_ga_Populations ga pops) (ent_ga ent)) best.
Proof.
  unfold Initialize.
  destruct (Z.ltb_spec (NPopulations (ga_Topology ga)) 0) as [|Hn]; [discriminate|].
  destruct (Z.ltb_spec (Z.of_N (ent_max_populations ent)) (NPopulations (ga_Topology ga)))
    as [|Hroom]; [discriminate|].
  simpl. intros H. apply bind_returns in H. destruct H as (tr1 & pops & tr2 & Hpops & H & ->).
  simpl in H. destruct (ga_MakeGenome ga) as [mk|] eqn:Hmk; [|discriminate].
  apply findBest_returns in H. destruct H as (best & Hloop & -> & ->).
  simpl in Hloop. exists mk, pops, best.
  destruct (go_range_returns _ _ _ _ _ Hpops) as (tr0 & Hseq). rewrite Hseq. simpl.
  repeat split; auto.
Qed.

Lemma Initialize_returns_trace (sentinel : float64) (ent : Entropy Rand) ga
      (tr : list Event) ga' :
  Initialize sentinel ent ga = (tr, Some ga') ->
  go_range (ent_order ent) (seq 0 (Z.to_nat (NPopulations (ga_Topology ga))))
           (fun j _ => initialize_worker sentinel ent ga j)
    = (tr, Some (ga_Populations ga')).
Proof.
  unfold Initialize.
  destruct ((NPopulations (ga_Topology ga) <? 0)
            || (Z.of_N (ent_max_populations ent) <? NPopulations (ga_Topology ga)));
    [discriminate|].
  intros H. apply bind_returns in H. destruct H as (tr1 & pops & tr2 & Hpops & H & ->).
  simpl in H. destruct (ga_MakeGenome ga) as [mk|]; [|discriminate].
  apply findBest_returns in H. destruct H as (best & _ & -> & ->).
  simpl. rewrite app_nil_r. exact Hpops.
Qed.

(** C1, as the code has it: after [Initialize] no first individual of a
    population is strictly fitter than [Best]; when some first individual
    is strictly fitter than the dummy, [Best] is a first individual, and
    its fitness is the minimum over the first individuals; when none is,
    [Best] stays the dummy.  After an [Enhance], the fitness of [Best] is
    the minimum over the first individuals whenever that minimum is at
    least as good as the fitness of the previous [Best]. *)
Theorem Best_after_scan
    (sentinel : float64)
    (speciate : Population Genome Rand -> Z -> list (Population Genome Rand)) :
  (forall (ent : Entropy Rand) ga (tr : list Event) ga' mk,
      Initialize sentinel ent ga = (tr, Some ga') ->
      ga_MakeGenome ga = Some mk ->
      let firsts := first_individuals (ga_Populations ga') in
      let dummy := MakeIndividual sentinel (fst (mk (ent_best ent))) in
      (forall f, In f firsts ->
                 SFltb (indi_Fitness f) (indi_Fitness (ga_Best ga')) = false) /\
      ((exists f, In f firsts /\ SFltb (indi_Fitness f) sentinel = true) ->
       In (ga_Best ga') firsts) /\
      (forall m, minimum_fitness m firsts -> SFltb m sentinel = true ->
                 SFeqb (indi_Fitness (ga_Best ga')) m = true) /\
      ((forall f, In f firsts -> SFltb (indi_Fitness f) sentinel = false) ->
       ga_Best ga' = dummy)) /\
  (forall (clk : Clock) ga (tr : list Event) ga' m,
      Enhance speciate clk ga = (tr, Some ga') ->
      minimum_fitness m (first_individuals (ga_Populations ga')) ->
      SFleb m (indi_Fitness (ga_Best ga)) = true ->
      SFeqb (indi_Fitness (ga_Best ga')) m = true).
Proof.
  split.
  - intros ent ga tr ga' mk H Hmk firsts dummy.
    apply Initialize_returns in H.
    destruct H as (mk' & pops & best & Hmk' & _ & _ & Hloop & ->).
    rewrite Hmk in Hmk'. inversion Hmk'; subst mk'. clear Hmk'.
    subst firsts dummy. simpl.
    apply findBest_loop_spec in Hloop. destruct Hloop as [Hbest Hmin].
    assert (Hstrict : (exists f, In f (first_individuals pops) /\
                                 SFltb (indi_Fitness f) sentinel = true) ->
                      In best (first_individuals pops)).
    { intros (f & Hin & Hlt). destruct Hbest as [->|[Hin' _]]; [|exact Hin'].
      apply Hmin in Hin. simpl in Hin. congruence. }
    repeat split; auto.
    + intros m [(f & Hin & <-) Hle] Hlt.
      assert (Hb : In best (first_individuals pops)) by (apply Hstrict; eauto).
      rewrite SFeqb_sym. apply SFleb_not_ltb_eqb; auto.
    + intros Hnone. destruct Hbest as [->|[Hin Hlt]]; [reflexivity|].
      apply Hnone in Hin. simpl in Hlt. congruence.
  - intros clk ga tr ga' m H [(f & Hin & <-) Hle] Hprev.
    apply Enhance_returns in H.
    destruct H as (ga1 & pops & best & tr1 & tr2 & _ & _ & Hloop & -> & _).
    simpl in *. apply findBest_loop_spec in Hloop. destruct Hloop as [Hbest Hmin].
    rewrite SFeqb_sym. apply SFleb_not_ltb_eqb; [|auto].
    destruct Hbest as [->|[Hin' _]]; auto.
Qed.

(** ** Monotonicity of the best fitness *)

Lemma Enhance_Best (speciate : Population Genome Rand -> Z -> list (Population Genome Rand))
      (clk : Clock) ga (tr : list Event) ga' :
  Enhance speciate clk ga = (tr, Some ga') ->
  ga_Best ga' = ga_Best ga \/
  SFltb (indi_Fitness (ga_Best ga')) (indi_Fitness (ga_Best ga)) = true.
Proof.
  intros H. apply Enhance_returns in H.
  destruct H as (ga1 & pops & best & tr1 & tr2 & _ & _ & Hloop & -> & _).
  simpl. apply findBest_loop_spec in Hloop. destruct Hloop as [[->|[_ Hlt]] _]; auto.
Qed.

Lemma Enhance_seq_Best (speciate : Population Genome Rand -> Z -> list (Population Genome Rand))
      (clks : list Clock) :
  forall ga (tr : list Event) ga',
    Enhance_seq speciate clks ga = (tr, Some ga') ->
    ga_Best ga' = ga_Best ga \/
    SFltb (indi_Fitness (ga_Best ga')) (indi_Fitness (ga_Best ga)) = true.
Proof.
  induction clks as [|clk rest IH]; simpl; intros ga tr ga' H.
  - inversion H; subst. auto.
  - apply bind_returns in H. destruct H as (tr1 & ga1 & tr2 & Hstep & Hrest & _).
    apply Enhance_Best in Hstep. apply IH in Hrest.
    destruct Hrest as [->|Hlt]; [exact Hstep|].
    destruct Hstep as [<-|Hlt']; [auto|].
    right. eapply SFltb_trans; eauto.
Qed.

(** C2: over one [Enhance] call, and over any sequence of them, [Best] is
    either left as it was or replaced by an individual of strictly lower
    fitness; so its fitness never increases, and, when it is a number, the
    new fitness is lower than or equal to the old one. *)
Theorem Best_fitness_non_increasing
    (speciate : Population Genome Rand -> Z -> list (Population Genome Rand)) :
  forall (clks : list Clock) ga (tr : list Event) ga',
    Enhance_seq speciate clks ga = (tr, Some ga') ->
    (ga_Best ga' = ga_Best ga \/
     SFltb (indi_Fitness (ga_Best ga')) (indi_Fitness (ga_Best ga)) = true) /\
    SFltb (indi_Fitness (ga_Best ga)) (indi_Fitness (ga_Best ga')) = false /\
    (is_NaN (indi_Fitness (ga_Best ga)) = false ->
     SFleb (indi_Fitness (ga_Best ga')) (indi_Fitness (ga_Best ga)) = true).
Proof.
  intros clks ga tr ga' H. apply Enhance_seq_Best in H.
  split; [exact H|]. destruct H as [->|Hlt].
  - split; [apply SFltb_irrefl|].
    intros Hnan. apply SFleb_of_not_ltb; auto. apply SFltb_irrefl.
  - split; [apply SFltb_asym; exact Hlt|].
    intros _. apply SFltb_leb. exact Hlt.
Qed.

(** ** Evaluation and sorting of individuals *)

Lemma Individuals_Evaluate_length indis :
  length (Individuals_Evaluate indis) = length indis.
Proof. apply length_map. Qed.

Lemma Individuals_Evaluate_evaluated indis :
  Forall evaluated (Individuals_Evaluate indis).
Proof.
  unfold Individuals_Evaluate. apply Forall_forall. intros indi Hin.
  apply in_map_iff in Hin. destruct Hin as (x & <- & _). reflexivity.
Qed.

Lemma evaluated_has_number (indi : Individual Genome) :
  fitness_is_a_number -> evaluated indi -> has_number indi.
Proof. unfold evaluated, has_number. intros Hnum ->. apply Hnum. Qed.

Lemma insert_by_fitness_perm (x : Individual Genome) indis :
  Permutation (insert_by_fitness x indis) (x :: indis).
Proof.
  induction indis as [|y rest IH]; simpl.
  - apply Permutation_refl.
  - destruct (SFltb (indi_Fitness y) (indi_Fitness x)).
    + eapply perm_trans; [apply perm_skip; exact IH | apply perm_swap].
    + apply Permutation_refl.
Qed.

Lemma Individuals_Sort_perm indis : Permutation (Individuals_Sort indis) indis.
Proof.
  induction indis as [|x rest IH]; simpl.
  - apply perm_nil.
  - eapply perm_trans; [apply insert_by_fitness_perm | apply perm_skip; exact IH].
Qed.

Lemma Individuals_Sort_length indis :
  length (Individuals_Sort indis) = length indis.
Proof. apply Permutation_length, Individuals_Sort_perm. Qed.

Lemma Individuals_Sort_Forall (P : Individual Genome -> Prop) indis :
  Forall P indis -> Forall P (Individuals_Sort indis).
Proof.
  apply Permutation_Forall, Permutation_sym, Individuals_Sort_perm.
Qed.

Lemma insert_by_fitness_sorted (x : Individual Genome) indis :
  has_number x -> Forall has_number indis ->
  StronglySorted fitness_le indis ->
  StronglySorted fitness_le (insert_by_fitness x indis).
Proof.
  intros Hx Hnum Hsorted. induction Hsorted as [|y rest Hrest IH Hy]; simpl.
  - constructor; constructor.
  - inversion Hnum as [|? ? Hynum Hrestnum]; subst.
    destruct (SFltb (indi_Fitness y) (indi_Fitness x)) eqn:Hlt.
    + constructor; [apply IH; exact Hrestnum|].
      eapply Permutation_Forall;
        [apply Permutation_sym, insert_by_fitness_perm|].
      constructor; [apply SFltb_leb; exact Hlt | exact Hy].
    + assert (Hxy : fitness_le x y) by (apply SFleb_of_not_ltb; auto).
      constructor; [constructor; assumption|].
      constructor; [exact Hxy|].
      eapply Forall_impl; [|exact Hy].
      intros z Hyz. unfold fitness_le in *. eapply SFleb_trans; eauto.
Qed.

Lemma Individuals_Sort_sorted indis :
  Forall has_number indis -> StronglySorted fitness_le (Individuals_Sort indis).
Proof.
  induction 1 as [|x rest Hx Hrest IH]; simpl.
  - constructor.
  - apply insert_by_fitness_sorted; auto.
    apply Individuals_Sort_Forall. exact Hrest.
Qed.

Lemma StronglySorted_ascending indis :
  StronglySorted fitness_le indis -> ascending indis.
Proof.
  induction 1 as [|x rest Hrest IH Hx]; intros i a b Ha Hb.
  - destruct i; discriminate.
  - destruct i as [|i]; simpl in Ha, Hb.
    + inversion Ha; subst. destruct rest as [|y rest']; [discriminate|].
      simpl in Hb. inversion Hb; subst.
      inversion Hx; subst. assumption.
    + eapply IH; eauto.
Qed.

Lemma evaluate_sort_spec indis :
  let indis' := Individuals_Sort (Individuals_Evaluate indis) in
  length indis' = length indis /\
  Forall evaluated indis' /\
  (fitness_is_a_number -> ascending indis' /\ best_first indis').
Proof.
  simpl. split; [|split].
  - rewrite Individuals_Sort_length. apply Individuals_Evaluate_length.
  - apply Individuals_Sort_Forall, Individuals_Evaluate_evaluated.
  - intros Hnum.
    assert (Hs : StronglySorted fitness_le (Individuals_Sort (Individuals_Evaluate indis))).
    { apply Individuals_Sort_sorted.
      eapply Forall_impl; [|apply Individuals_Evaluate_evaluated].
      intros indi. apply evaluated_has_number. exact Hnum. }
    split; [apply StronglySorted_ascending; exact Hs|].
    intros first others Heq. rewrite Heq in Hs. inversion Hs; subst. assumption.
Qed.

(** ** The population workers *)

Lemma makeIndividuals_length (sentinel : float64) (mk : GenomeMaker Genome Rand) (n : nat) :
  forall rng : Rand, length (fst (makeIndividuals sentinel n mk rng)) = n.
Proof.
  induction n as [|n IH]; simpl; intros rng; [reflexivity|].
  destruct (mk rng) as [genome rng1].
  specialize (IH rng1). destruct (makeIndividuals sentinel n mk rng1) as [rest rng2].
  simpl in *. congruence.
Qed.

Lemma makePopulation_returns (sentinel : float64) (room : N) (n : Z)
      (gm : option (GenomeMaker Genome Rand)) (id : nat) (rng : Rand) pop :
  makePopulation sentinel room n gm id rng = Some pop ->
  0 <= n /\ length (pop_Individuals pop) = Z.to_nat n /\ pop_Generations pop = 0.
Proof.
  unfold makePopulation. destruct (Z.ltb_spec n 0) as [|Hn]; [discriminate|].
  destruct (Z.of_N room <? n); [discriminate|]. simpl.
  destruct gm as [mk|].
  - pose proof (makeIndividuals_length sentinel mk (Z.to_nat n) rng) as Hlen.
    destruct (makeIndividuals sentinel (Z.to_nat n) mk rng) as [indis rng'].
    intros H; inversion H; subst; simpl in *. auto.
  - destruct (Z.eqb_spec n 0) as [->|]; [|discriminate].
    intros H; inversion H; subst; simpl. auto.
Qed.

Lemma initialize_worker_returns (sentinel : float64) (ent : Entropy Rand) ga
      (j : nat) (tr : list Event) pop :
  initialize_worker sentinel ent ga j = (tr, Some pop) ->
  length (pop_Individuals pop) = Z.to_nat (NIndividuals (ga_Topology ga)) /\
  Forall evaluated (pop_Individuals pop) /\
  pop_Generations pop = 0 /\
  (fitness_is_a_number ->
   ascending (pop_Individuals pop) /\ best_first (pop_Individuals pop)).
Proof.
  unfold initialize_worker.
  destruct (makePopulation _ _ _ _ _ _) as [pop0|] eqn:Hmake; [|discriminate].
  apply makePopulation_returns in Hmake. destruct Hmake as (_ & Hlen & Hgen).
  intros H. apply bind_returns in H. destruct H as (tr1 & [] & tr2 & _ & H & _).
  inversion H; subst; clear H. simpl.
  destruct (evaluate_sort_spec (pop_Individuals pop0)) as (Hl & He & Hs).
  simpl in Hl, He, Hs. rewrite Hl. auto.
Qed.


Lemma for_range_apply_model ga (model : Model Genome Rand) (j : nat)
      (species : list (Population Genome Rand)) :
  ga_Model ga = Some model ->
  forall k0,
    for_range k0 species (fun k sp => apply_model ga (EvApply j (Some k)) sp) =
    (map (fun k => EvApply j (Some k)) (seq k0 (length species)),
     Some (map (Model_Apply model) species)).
Proof.
  intros Hmodel. induction species as [|sp rest IH]; simpl; intros k0; [reflexivity|].
  unfold apply_model at 1. rewrite Hmodel, IH.
  unfold bind, emit, ret. simpl. rewrite app_nil_r. reflexivity.
Qed.

(** What a worker of [Enhance] leaves in its slot, given the population
    the evolution step produced. *)
Lemma enhance_worker_returns
      (speciate : Population Genome Rand -> Z -> list (Population Genome Rand))
      (clk : Clock) ga (j : nat) pop (tr : list Event) pop' :
  enhance_worker speciate clk ga j pop = (tr, Some pop') ->
  exists tr1 pop1,
    evolve speciate ga j pop = (tr1, Some pop1) /\
    tr = tr1 ++ trace_of (log_population ga j) /\
    pop_Individuals pop' = Individuals_Sort (Individuals_Evaluate (pop_Individuals pop1)) /\
    pop_Generations pop' = wrap64 (pop_Generations pop1 + 1) /\
    pop_Age pop' = wrap64 (pop_Age pop1 + pop_elapsed clk j).
Proof.
  unfold enhance_worker. intros H.
  apply bind_returns in H. destruct H as (tr1 & pop1 & tr2 & Hevolve & H & ->).
  apply bind_returns in H. destruct H as (tr3 & [] & tr4 & Hlog & H & ->).
  inversion H; subst; clear H. rewrite Hlog. simpl.
  exists tr1, pop1. rewrite app_nil_r. auto.
Qed.

Lemma enhance_worker_total
      (speciate : Population Genome Rand -> Z -> list (Population Genome Rand))
      (clk : Clock) ga (j : nat) pop :
  ga_Model ga <> None ->
  result_of (enhance_worker speciate clk ga j pop) <> None.
Proof.
  intros Hmodel. destruct (ga_Model ga) as [model|] eqn:Hm; [|congruence].
  unfold enhance_worker, evolve.
  destruct (0 <? NSpecies (ga_Topology ga)).
  - rewrite (for_range_apply_model ga model j _ Hm). simpl.
    unfold log_population. destruct (ga_Logger ga); simpl; discriminate.
  - unfold apply_model. rewrite Hm. simpl.
    unfold log_population. destruct (ga_Logger ga); simpl; discriminate.
Qed.

Lemma merge_length (species : list (Population Genome Rand)) :
  length (merge species) =
  list_sum (map (fun sp => length (pop_Individuals sp)) species).
Proof.
  unfold merge. induction species as [|sp rest IH]; simpl; [reflexivity|].
  rewrite length_app, IH. reflexivity.
Qed.

Lemma filter_apply_species (j k0 n : nat) :
  filter is_apply (map (fun k => EvApply j (Some k)) (seq k0 n)) =
  map (fun k => EvApply j (Some k)) (seq k0 n).
Proof.
  revert k0. induction n as [|n IH]; simpl; intros k0; [reflexivity|].
  rewrite IH. reflexivity.
Qed.

Lemma filter_apply_log ga (j : nat) :
  filter is_apply (trace_of (log_population ga j)) = [].
Proof. unfold log_population. destruct (ga_Logger ga); reflexivity. Qed.

(** C8: the worker of [Enhance] for one population, with a Model set.
    With a positive number of species the Model is applied once to each
    species of the population, in turn, and the individuals become the
    merged species, evaluated and sorted; their number is the total over
    the species after the Model, hence unchanged when the species
    partition the population and the Model does not resize them.
    Otherwise the Model is applied once, to the whole population.  In
    both cases every individual carries the fitness of its genome and the
    sequence is sorted. *)
Theorem enhance_worker_evolution
    (speciate : Population Genome Rand -> Z -> list (Population Genome Rand))
    (clk : Clock) ga (j : nat) pop (model : Model Genome Rand) :
  ga_Model ga = Some model ->
  exists (tr : list Event) pop',
    enhance_worker speciate clk ga j pop = (tr, Some pop') /\
    (0 < NSpecies (ga_Topology ga) ->
       let species := speciate pop (NSpecies (ga_Topology ga)) in
       filter is_apply tr = map (fun k => EvApply j (Some k)) (seq 0 (length species)) /\
       pop_Individuals pop' =
         Individuals_Sort (Individuals_Evaluate (merge (map (Model_Apply model) species))) /\
       length (pop_Individuals pop') =
         list_sum (map (fun sp => length (pop_Individuals (Model_Apply model sp))) species) /\
       (Permutation (merge species) (pop_Individuals pop) ->
        (forall sp, In sp species ->
           length (pop_Individuals (Model_Apply model sp)) = length (pop_Individuals sp)) ->
        length (pop_Individuals pop') = length (pop_Individuals pop))) /\
    (NSpecies (ga_Topology ga) <= 0 ->
       filter is_apply tr = [EvApply j None] /\
       pop_Individuals pop' =
         Individuals_Sort (Individuals_Evaluate (pop_Individuals (Model_Apply model pop)))) /\
    Forall evaluated (pop_Individuals pop') /\
    (fitness_is_a_number ->
     ascending (pop_Individuals pop') /\ best_first (pop_Individuals pop')).
Proof.
  intros Hmodel.
  destruct (enhance_worker speciate clk ga j pop) as [tr [pop'|]] eqn:Hw;
    [|exfalso; eapply enhance_worker_total with (speciate := speciate) (clk := clk)
                 (j := j) (pop := pop); [rewrite Hmodel; discriminate | rewrite Hw; reflexivity]].
  exists tr, pop'. split; [reflexivity|].
  apply enhance_worker_returns in Hw.
  destruct Hw as (tr1 & pop1 & Hevolve & -> & Hindis & _ & _).
  destruct (evaluate_sort_spec (pop_Individuals pop1)) as (Hlen & Heval & Hsorted).
  simpl in Hlen, Heval, Hsorted. rewrite <- Hindis in Hlen, Heval, Hsorted.
  unfold evolve in Hevolve. rewrite filter_app, filter_apply_log, app_nil_r.
  split; [|split; [|split; assumption]].
  - intros Hn species. apply Z.ltb_lt in Hn. rewrite Hn in Hevolve.
    rewrite (for_range_apply_model ga model j _ Hmodel) in Hevolve. simpl in Hevolve.
    inversion Hevolve; subst; clear Hevolve. simpl in *.
    rewrite app_nil_r, filter_apply_species.
    assert (Hsum : length (pop_Individuals pop') =
                   list_sum (map (fun sp => length (pop_Individuals (Model_Apply model sp)))
                                 species)).
    { rewrite Hlen, merge_length, map_map. reflexivity. }
    repeat split; auto.
    intros Hperm Hsize. rewrite Hsum.
    rewrite <- (Permutation_length Hperm), merge_length.
    f_equal. apply map_ext_in. exact Hsize.
  - intros Hn. apply Z.ltb_ge in Hn. rewrite Hn in Hevolve.
    unfold apply_model in Hevolve. rewrite Hmodel in Hevolve. simpl in Hevolve.
    inversion Hevolve; subst; clear Hevolve. simpl. auto.
Qed.

Lemma for_range_Forall2 {A B : Type} (f : nat -> A -> M B) (R : A -> B -> Prop) (l : list A) :
  (forall j a tr b, f j a = (tr, Some b) -> R a b) ->
  forall j0 (tr : list Event) bs,
    for_range j0 l f = (tr, Some bs) -> Forall2 R l bs.
Proof.
  intros Hf j0 tr bs H. apply for_range_returns in H.
  eapply Forall2_impl; [|exact H].
  intros a b (j & tr' & Hab). eapply Hf; eauto.
Qed.

Lemma Forall2_Forall_r {A B : Type} (R : A -> B -> Prop) (P : B -> Prop)
      (l : list A) (bs : list B) :
  Forall2 R l bs -> (forall a b, R a b -> P b) -> Forall P bs.
Proof. induction 1; intros HP; constructor; eauto. Qed.

(** ** Initialize *)

Lemma Initialize_workers (sentinel : float64) (ent : Entropy Rand) ga
      (j0 : nat) (slots : list nat) (tr : list Event) pops :
  for_range j0 slots (fun j _ => initialize_worker sentinel ent ga j) = (tr, Some pops) ->
  length pops = length slots /\
  Forall (fun pop =>
            length (pop_Individuals pop) = Z.to_nat (NIndividuals (ga_Topology ga)) /\
            Forall evaluated (pop_Individuals pop) /\
            pop_Generations pop = 0 /\
            (fitness_is_a_number ->
             ascending (pop_Individuals pop) /\ best_first (pop_Individuals pop))) pops.
Proof.
  intros H.
  apply for_range_Forall2 with
    (R := fun (_ : nat) pop =>
            length (pop_Individuals pop) = Z.to_nat (NIndividuals (ga_Topology ga)) /\
            Forall evaluated (pop_Individuals pop) /\
            pop_Generations pop = 0 /\
            (fitness_is_a_number ->
             ascending (pop_Individuals pop) /\ best_first (pop_Individuals pop))) in H.
  - split; [symmetry; eapply Forall2_length; exact H|].
    eapply Forall2_Forall_r; [exact H | auto].
  - intros j _ tr' pop Hw. eapply initialize_worker_returns; eauto.
Qed.



(** ** Enhance *)

Lemma Enhance_workers
      (speciate : Population Genome Rand -> Z -> list (Population Genome Rand))
      (clk : Clock) ga (j0 : nat) pops (tr : list Event) pops' :
  for_range j0 pops (enhance_worker speciate clk ga) = (tr, Some pops') ->
  Forall (fun pop =>
            Forall evaluated (pop_Individuals pop) /\
            (fitness_is_a_number ->
             ascending (pop_Individuals pop) /\ best_first (pop_Individuals pop))) pops'.
Proof.
  intros H.
  apply for_range_Forall2 with
    (R := fun (_ : Population Genome Rand) pop =>
            Forall evaluated (pop_Individuals pop) /\
            (fitness_is_a_number ->
             ascending (pop_Individuals pop) /\ best_first (pop_Individuals pop))) in H.
  - eapply Forall2_Forall_r; [exact H | auto].
  - intros j pop tr' pop' Hw. apply enhance_worker_returns in Hw.
    destruct Hw as (tr1 & pop1 & _ & _ & -> & _).
    destruct (evaluate_sort_spec (pop_Individuals pop1)) as (_ & He & Hs). auto.
Qed.

(** C4, as the code has it: when no genome evaluates to NaN, every
    population that [Initialize] or [Enhance] returns has its individuals
    in ascending order of fitness on every adjacent pair, the individual
    at index 0 being at least as fit as all the others. *)
Theorem populations_sorted
    (sentinel : float64)
    (speciate : Population Genome Rand -> Z -> list (Population Genome Rand)) :
  fitness_is_a_number ->
  (forall (ent : Entropy Rand) ga (tr : list Event) ga',
      Initialize sentinel ent ga = (tr, Some ga') ->
      Forall (fun pop => ascending (pop_Individuals pop) /\ best_first (pop_Individuals pop))
             (ga_Populations ga')) /\
  (forall (clk : Clock) ga (tr : list Event) ga',
      Enhance speciate clk ga = (tr, Some ga') ->
      Forall (fun pop => ascending (pop_Individuals pop) /\ best_first (pop_Individuals pop))
             (ga_Populations ga')).
Proof.
  intros Hnum. split.
  - intros ent ga tr ga' H. apply Initialize_returns in H.
    destruct H as (mk & pops & best & _ & _ & Hrange & _ & ->). simpl.
    apply Initialize_workers in Hrange. destruct Hrange as [_ Hpops].
    eapply Forall_impl; [|exact Hpops]. intros pop (_ & _ & _ & Hs). auto.
  - intros clk ga tr ga' H. apply Enhance_returns in H.
    destruct H as (ga1 & pops & best & tr1 & tr2 & _ & Hrange & _ & -> & _). simpl.
    apply Enhance_workers in Hrange.
    eapply Forall_impl; [|exact Hrange]. intros pop (_ & Hs). auto.
Qed.

(** ** The migration gate *)

Lemma migrate_trace ga :
  (migration_due ga (ga_Generations ga) ->
   trace_of (migrate ga) = [EvMigrate] /\ result_of (migrate ga) <> None) /\
  (~ migration_due ga (ga_Generations ga) -> trace_of (migrate ga) = []) /\
  (migration_due ga (ga_Generations ga) \/ ~ migration_due ga (ga_Generations ga)).
Proof.
  assert (Hyes : forall tr (r : option (GA Genome Rand)) (P : Prop),
             P -> tr = [EvMigrate] -> r <> None ->
             (P -> tr = [EvMigrate] /\ r <> None) /\ (~ P -> tr = []) /\ (P \/ ~ P)).
  { intros tr r P HP Htr Hr. split; [auto | split; [intros HnP; contradiction | auto]]. }
  assert (Hno : forall tr (r : option (GA Genome Rand)) (P : Prop),
             ~ P -> tr = [] ->
             (P -> tr = [EvMigrate] /\ r <> None) /\ (~ P -> tr = []) /\ (P \/ ~ P)).
  { intros tr r P HP Htr. split; [intros HP'; contradiction | auto]. }
  unfold migrate, migration_due.
  destruct (Z.ltb_spec 1 (NPopulations (ga_Topology ga))) as [Hn|Hn];
    [|apply Hno; [intros (H & _); lia | reflexivity]].
  destruct (ga_Migrator ga) as [migrator|];
    [|apply Hno; [intros (_ & H & _); congruence | reflexivity]].
  destruct (int_rem (ga_Generations ga) (ga_MigFrequency ga)) as [r|];
    [|apply Hno; [intros (_ & _ & H); discriminate | reflexivity]].
  destruct (Z.eqb_spec r 0) as [->|Hr];
    [|apply Hno; [intros (_ & _ & H); congruence | reflexivity]].
  destruct (migrator (ga_Populations ga) (ga_rng ga)) as [pops rng].
  apply Hyes; [|reflexivity|simpl; discriminate].
  split; [exact Hn | split; [discriminate | reflexivity]].
Qed.

Lemma apply_model_no_migration ga (ev : Event) pop :
  is_migrate ev = false ->
  migrations (trace_of (apply_model ga ev pop)) = 0%nat.
Proof.
  intros Hev. unfold apply_model. destruct (ga_Model ga); [|reflexivity].
  unfold migrations. simpl. rewrite Hev. reflexivity.
Qed.

Lemma log_population_no_migration ga (j : nat) :
  migrations (trace_of (log_population ga j)) = 0%nat.
Proof. unfold log_population. destruct (ga_Logger ga); reflexivity. Qed.

Lemma evolve_no_migration
      (speciate : Population Genome Rand -> Z -> list (Population Genome Rand))
      ga (j : nat) pop :
  migrations (trace_of (evolve speciate ga j pop)) = 0%nat.
Proof.
  unfold evolve. destruct (0 <? NSpecies (ga_Topology ga)).
  - rewrite trace_bind, migrations_app.
    rewrite for_range_no_migration
      by (intros; apply apply_model_no_migration; reflexivity).
    destruct (result_of _); reflexivity.
  - apply apply_model_no_migration. reflexivity.
Qed.

Lemma enhance_worker_no_migration
      (speciate : Population Genome Rand -> Z -> list (Population Genome Rand))
      (clk : Clock) ga (j : nat) pop :
  migrations (trace_of (enhance_worker speciate clk ga j pop)) = 0%nat.
Proof.
  unfold enhance_worker. rewrite trace_bind, migrations_app, evolve_no_migration.
  destruct (result_of _); [|reflexivity].
  rewrite trace_bind, migrations_app, log_population_no_migration.
  destruct (result_of _); reflexivity.
Qed.

Lemma findBest_trace ga : trace_of (findBest ga) = [].
Proof. unfold findBest. destruct (findBest_loop _ _); reflexivity. Qed.

Lemma Enhance_trace
      (speciate : Population Genome Rand -> Z -> list (Population Genome Rand))
      (clk : Clock) ga :
  exists rest,
    trace_of (Enhance speciate clk ga) =
      trace_of (migrate (set_ga_Generations ga (wrap64 (ga_Generations ga + 1)))) ++ rest /\
    migrations rest = 0%nat.
Proof.
  unfold Enhance. rewrite trace_bind. eexists. split; [reflexivity|].
  destruct (result_of _) as [ga1|]; [|reflexivity].
  rewrite trace_bind, migrations_app.
  rewrite go_range_no_migration by (intros; apply enhance_worker_no_migration).
  destruct (result_of _) as [pops|]; [|reflexivity].
  rewrite trace_bind, migrations_app, findBest_trace.
  destruct (result_of _); reflexivity.
Qed.

Lemma Enhance_migrations
      (speciate : Population Genome Rand -> Z -> list (Population Genome Rand))
      (clk : Clock) ga :
  let g := wrap64 (ga_Generations ga + 1) in
  let tr := trace_of (Enhance speciate clk ga) in
  (migration_due ga g -> exists rest, tr = EvMigrate :: rest /\ migrations rest = 0%nat) /\
  (~ migration_due ga g -> migrations tr = 0%nat) /\
  (migrations tr = 1%nat <-> migration_due ga g).
Proof.
  intros g tr. subst tr.
  destruct (Enhance_trace speciate clk ga) as (rest & -> & Hrest).
  destruct (migrate_trace (set_ga_Generations ga g)) as (Hdue & Hnot & Hdec).
  change (migration_due (set_ga_Generations ga g)
            (ga_Generations (set_ga_Generations ga g)))
    with (migration_due ga g) in *.
  fold g.
  assert (H1 : migration_due ga g ->
               exists rest0, trace_of (migrate (set_ga_Generations ga g)) ++ rest
                             = EvMigrate :: rest0 /\ migrations rest0 = 0%nat).
  { intros H. destruct (Hdue H) as [-> _]. exists rest. auto. }
  assert (H2 : ~ migration_due ga g ->
               migrations (trace_of (migrate (set_ga_Generations ga g)) ++ rest) = 0%nat).
  { intros H. rewrite (Hnot H). exact Hrest. }
  split; [exact H1 | split; [exact H2|]].
  split.
  - intros Hone. destruct Hdec as [H|H]; [exact H|].
    rewrite (H2 H) in Hone. discriminate.
  - intros H. destruct (H1 H) as (rest0 & -> & H0).
    unfold migrations in *. simpl. rewrite H0. reflexivity.
Qed.


(** ** Generation counters *)

Lemma Enhance_frame
      (speciate : Population Genome Rand -> Z -> list (Population Genome Rand))
      (clk : Clock) ga (tr : list Event) ga' :
  Enhance speciate clk ga = (tr, Some ga') ->
  same_settings ga ga' /\
  ga_Generations ga' = wrap64 (ga_Generations ga + 1) /\
  ga_Age ga' = wrap64 (ga_Age ga + ga_elapsed clk).
Proof.
  intros H. apply Enhance_returns in H.
  destruct H as (ga1 & pops & best & tr1 & tr2 & Hmig & _ & _ & -> & _).
  apply migrate_returns in Hmig. destruct Hmig as (Hsame & _ & _ & Hgen & _).
  simpl in *. auto.
Qed.

Lemma evolve_generations
      (speciate : Population Genome Rand -> Z -> list (Population Genome Rand))
      ga (j : nat) pop (tr : list Event) pop1 :
  (forall model, ga_Model ga = Some model -> model_keeps_generations model) ->
  evolve speciate ga j pop = (tr, Some pop1) ->
  pop_Generations pop1 = pop_Generations pop.
Proof.
  intros Hkeep. unfold evolve. destruct (0 <? NSpecies (ga_Topology ga)).
  - intros H. apply bind_returns in H. destruct H as (tr1 & species & tr2 & _ & H & _).
    inversion H; subst. reflexivity.
  - unfold apply_model. destruct (ga_Model ga) as [model|] eqn:Hmodel; [|discriminate].
    simpl. intros H. inversion H; subst. apply (Hkeep model eq_refl).
Qed.

Lemma Enhance_generations
      (speciate : Population Genome Rand -> Z -> list (Population Genome Rand))
      (clk : Clock) ga (tr : list Event) ga' (g : Z) :
  (forall model, ga_Model ga = Some model -> model_keeps_generations model) ->
  (forall migrator, ga_Migrator ga = Some migrator -> migrator_keeps_generations migrator) ->
  Enhance speciate clk ga = (tr, Some ga') ->
  Forall (fun pop => pop_Generations pop = g) (ga_Populations ga) ->
  Forall (fun pop => pop_Generations pop = wrap64 (g + 1)) (ga_Populations ga').
Proof.
  intros Hmodel Hmigrator H Hpops. apply Enhance_returns in H.
  destruct H as (ga1 & pops & best & tr1 & tr2 & Hmig & Hrange & _ & -> & _).
  apply migrate_returns in Hmig.
  destruct Hmig as ((_ & _ & Hsame & _) & _ & _ & _ & Hmoved). simpl in *.
  assert (Hpops1 : Forall (fun pop => pop_Generations pop = g) (ga_Populations ga1)).
  { destruct Hmoved as [->|(migrator & Hm & ->)]; [exact Hpops|].
    apply (Hmigrator migrator Hm). exact Hpops. }
  apply for_range_Forall2 with
    (R := fun pop pop' => pop_Generations pop' = wrap64 (pop_Generations pop + 1))
    in Hrange.
  - clear - Hrange Hpops1. induction Hrange as [|pop pop' l l' Hstep _ IH].
    + constructor.
    + inversion Hpops1; subst. constructor; [exact Hstep | auto].
  - intros j pop tr' pop' Hw. apply enhance_worker_returns in Hw.
    destruct Hw as (tr3 & pop1 & Hevolve & _ & _ & -> & _).
    apply evolve_generations in Hevolve; [congruence|].
    rewrite Hsame. exact Hmodel.
Qed.

Lemma Enhance_seq_generations
      (speciate : Population Genome Rand -> Z -> list (Population Genome Rand))
      (clks : list Clock) :
  forall ga (tr : list Event) ga' (g : Z),
    (forall model, ga_Model ga = Some model -> model_keeps_generations model) ->
    (forall migrator, ga_Migrator ga = Some migrator -> migrator_keeps_generations migrator) ->
    Enhance_seq speciate clks ga = (tr, Some ga') ->
    0 <= g -> g + Z.of_nat (length clks) <= max_int ->
    ga_Generations ga = g ->
    Forall (fun pop => pop_Generations pop = g) (ga_Populations ga) ->
    ga_Generations ga' = g + Z.of_nat (length clks) /\
    Forall (fun pop => pop_Generations pop = g + Z.of_nat (length clks)) (ga_Populations ga').
Proof.
  induction clks as [|clk rest IH]; intros ga tr ga' g Hmodel Hmigrator H Hg Hmax Hgen Hpops.
  - simpl in *. inversion H; subst. rewrite Z.add_0_r.
    split; [reflexivity|]. eapply Forall_impl; [|exact Hpops]. simpl. intros; lia.
  - simpl in H. apply bind_returns in H. destruct H as (tr1 & ga1 & tr2 & Hstep & Hrest & _).
    pose proof (Enhance_frame _ _ _ _ _ Hstep) as ((_ & _ & Hm & Hmg & _) & Hgen1 & _).
    pose proof (Enhance_generations _ _ _ _ _ g Hmodel Hmigrator Hstep Hpops) as Hpops1.
    assert (Hw : wrap64 (g + 1) = g + 1).
    { apply wrap64_small. unfold min_int, max_int in *.
      rewrite length_cons, Nat2Z.inj_succ in Hmax. lia. }
    rewrite Hgen, Hw in Hgen1. rewrite Hw in Hpops1.
    rewrite length_cons, Nat2Z.inj_succ in *.
    replace (g + Z.succ (Z.of_nat (length rest))) with (g + 1 + Z.of_nat (length rest)) by lia.
    rewrite <- Hm in Hmodel. rewrite <- Hmg in Hmigrator.
    apply (IH ga1 tr2 ga' (g + 1) Hmodel Hmigrator Hrest); auto; lia.
Qed.

Lemma Enhance_seq_lockstep
      (speciate : Population Genome Rand -> Z -> list (Population Genome Rand))
      (clks : list Clock) :
  forall ga (tr : list Event) ga',
    (forall model, ga_Model ga = Some model -> model_keeps_generations model) ->
    (forall migrator, ga_Migrator ga = Some migrator -> migrator_keeps_generations migrator) ->
    Enhance_seq speciate clks ga = (tr, Some ga') ->
    Forall (fun pop => pop_Generations pop = ga_Generations ga) (ga_Populations ga) ->
    Forall (fun pop => pop_Generations pop = ga_Generations ga') (ga_Populations ga').
Proof.
  induction clks as [|clk rest IH]; intros ga tr ga' Hmodel Hmigrator H Hpops.
  - simpl in H. inversion H; subst. exact Hpops.
  - simpl in H. apply bind_returns in H. destruct H as (tr1 & ga1 & tr2 & Hstep & Hrest & _).
    pose proof (Enhance_frame _ _ _ _ _ Hstep) as ((_ & _ & Hm & Hmg & _) & Hgen1 & _).
    pose proof (Enhance_generations _ _ _ _ _ _ Hmodel Hmigrator Hstep Hpops) as Hpops1.
    rewrite <- Hgen1 in Hpops1.
    rewrite <- Hm in Hmodel. rewrite <- Hmg in Hmigrator.
    apply (IH ga1 tr2 ga' Hmodel Hmigrator Hrest Hpops1).
Qed.

Lemma Initialize_frame_lemma (sentinel : float64) (ent : Entropy Rand) ga
      (tr : list Event) ga' :
  Initialize sentinel ent ga = (tr, Some ga') ->
  same_settings ga ga' /\
  ga_Generations ga' = ga_Generations ga /\
  ga_Age ga' = ga_Age ga /\
  ga_rng ga' = ent_ga ent /\
  Forall (fun pop => pop_Generations pop = 0) (ga_Populations ga').
Proof.
  intros H. apply Initialize_returns in H.
  destruct H as (mk & pops & best & _ & _ & Hrange & _ & ->). simpl.
  apply Initialize_workers in Hrange. destruct Hrange as [_ Hpops].
  unfold same_settings. simpl. repeat split; auto.
  eapply Forall_impl; [|exact Hpops]. intros pop (_ & _ & Hg & _). exact Hg.
Qed.

(** C9: each [Enhance] call increments the generation counter of the GA
    by one, as Go's [++] does on an [int] (plus one on every value below
    the largest [int]), and, with a Model and a Migrator that leave the
    generation counts of the populations alone, it increments in the same
    way the counter of populations that all are at one generation.  So
    after [Initialize] on a GA whose counter is zero and any sequence of
    [Enhance] calls, the counter of every population equals the counter
    of the GA, which is the number of calls as long as that number is
    representable. *)
Theorem generation_counters_lockstep
    (sentinel : float64)
    (speciate : Population Genome Rand -> Z -> list (Population Genome Rand)) :
  (forall (clk : Clock) ga (tr : list Event) ga' (g : Z),
      (forall model, ga_Model ga = Some model -> model_keeps_generations model) ->
      (forall migrator, ga_Migrator ga = Some migrator ->
                        migrator_keeps_generations migrator) ->
      Enhance speciate clk ga = (tr, Some ga') ->
      ga_Generations ga' = wrap64 (ga_Generations ga + 1) /\
      (min_int <= ga_Generations ga < max_int ->
       ga_Generations ga' = ga_Generations ga + 1) /\
      (Forall (fun pop => pop_Generations pop = g) (ga_Populations ga) ->
       Forall (fun pop => pop_Generations pop = wrap64 (g + 1)) (ga_Populations ga'))) /\
  (forall (ent : Entropy Rand) (clks : list Clock) ga0 (tr0 : list Event) ga1
          (tr : list Event) ga',
      (forall model, ga_Model ga0 = Some model -> model_keeps_generations model) ->
      (forall migrator, ga_Migrator ga0 = Some migrator ->
                        migrator_keeps_generations migrator) ->
      ga_Generations ga0 = 0 ->
      Initialize sentinel ent ga0 = (tr0, Some ga1) ->
      Enhance_seq speciate clks ga1 = (tr, Some ga') ->
      Forall (fun pop => pop_Generations pop = ga_Generations ga') (ga_Populations ga') /\
      (Z.of_nat (length clks) <= max_int ->
       ga_Generations ga' = Z.of_nat (length clks))).
Proof.
  split.
  - intros clk ga tr ga' g Hmodel Hmigrator H.
    pose proof (Enhance_frame _ _ _ _ _ H) as (_ & Hgen & _).
    split; [exact Hgen | split].
    + intros Hrange. rewrite Hgen. apply wrap64_small. lia.
    + intros Hpops. eapply Enhance_generations; eauto.
  - intros ent clks ga0 tr0 ga1 tr ga' Hmodel Hmigrator Hzero Hinit Hseq.
    apply Initialize_frame_lemma in Hinit.
    destruct Hinit as ((_ & _ & Hm & Hmg & _) & Hgen & _ & _ & Hpops).
    rewrite <- Hm in Hmodel. rewrite <- Hmg in Hmigrator.
    rewrite Hzero in Hgen. split.
    + apply (Enhance_seq_lockstep speciate clks ga1 tr ga' Hmodel Hmigrator Hseq).
      rewrite Hgen. exact Hpops.
    + intros Hmax.
      destruct (Enhance_seq_generations speciate clks ga1 tr ga' 0
                  Hmodel Hmigrator Hseq) as [Hg _]; auto; lia.
Qed.

(** C10: [Initialize] leaves the user-provided fields, the generation
    counter and the age of the GA as they were (it writes the
    populations, the best individual and the random generator only); so
    the next [Enhance] counts on from the counter the GA had before
    [Initialize], and gates the migration on that count. *)
Theorem Initialize_keeps_counters
    (sentinel : float64)
    (speciate : Population Genome Rand -> Z -> list (Population Genome Rand))
    (ent : Entropy Rand) ga (tr : list Event) ga' :
  Initialize sentinel ent ga = (tr, Some ga') ->
  same_settings ga ga' /\
  ga_Generations ga' = ga_Generations ga /\
  ga_Age ga' = ga_Age ga /\
  ga_rng ga' = ent_ga ent /\
  (forall (clk : Clock),
      let g := wrap64 (ga_Generations ga + 1) in
      (migrations (trace_of (Enhance speciate clk ga')) = 1%nat <-> migration_due ga g) /\
      (forall (tr' : list Event) ga'',
          Enhance speciate clk ga' = (tr', Some ga'') ->
          ga_Generations ga'' = g /\
          ga_Age ga'' = wrap64 (ga_Age ga + ga_elapsed clk))).
Proof.
  intros H. apply Initialize_frame_lemma in H.
  destruct H as (Hsame & Hgen & Hage & Hrng & _).
  repeat (split; [assumption|]).
  intros clk g. split.
  - destruct (Enhance_migrations speciate clk ga') as (_ & _ & Hiff).
    rewrite Hgen in Hiff. fold g in Hiff. rewrite Hiff.
    destruct Hsame as (_ & Htopo & _ & Hmig & Hfreq & _).
    unfold migration_due. rewrite Htopo, Hmig, Hfreq. tauto.
  - intros tr' ga'' Hstep.
    pose proof (Enhance_frame _ _ _ _ _ Hstep) as (_ & Hg & Ha).
    rewrite Hgen in Hg. rewrite Hage in Ha. auto.
Qed.

End Properties.

(** * The properties on the concrete engine *)


Lemma Demo_fitness_is_a_number : @fitness_is_a_number Z Demo.genome_value.
Proof.
  intros z. simpl. unfold Demo.fitness_of_Z, Demo.normal.
  destruct z as [|p|p]; simpl; try reflexivity;
    destruct (Z.pos (digits2_pos p) <=? 53); reflexivity.
Qed.

Lemma Demo_decrease_keeps_generations :
  forall model, Some Demo.decrease = Some model -> model_keeps_generations model.
Proof. intros model H pop. inversion H; subst. reflexivity. Qed.

Lemma Demo_swap_ends_keeps_generations :
  forall migrator, Some Demo.swap_ends = Some migrator -> migrator_keeps_generations migrator.
Proof.
  intros migrator H pops rng g Hpops. inversion H; subst. simpl.
  apply Forall_rev. exact Hpops.
Qed.


(** C1: with two populations of five individuals whose genomes are 16..20
    and 26..30, fitness the value of the genome and a dummy of fitness
    zero, [Initialize] returns with the dummy (genome 100) still in
    [Best]: it is none of the first individuals, and its fitness is not
    their minimum.  With genomes that all evaluate to positive infinity
    the dummy stays whatever fitness it carries. *)
Lemma Initialize_keeps_dummy :
  GA_Validate Demo.ga_2x5 = None /\
  (let ga' := Demo.initialized Demo.genome_value pos_zero Demo.ga_2x5 in
   @Initialize Z Z Demo.genome_value pos_zero Demo.entropy Demo.ga_2x5 = ([], Some ga') /\
   first_individuals (ga_Populations ga') = [Demo.individual 16; Demo.individual 26] /\
   ga_Best ga' = {| indi_Genome := 100; indi_Fitness := pos_zero |} /\
   ~ In (ga_Best ga') (first_individuals (ga_Populations ga')) /\
   ~ minimum_fitness (indi_Fitness (ga_Best ga')) (first_individuals (ga_Populations ga'))) /\
  Forall (fun sentinel =>
            let ga' := Demo.initialized Demo.genome_worst sentinel Demo.ga_2x5 in
            @Initialize Z Z Demo.genome_worst sentinel Demo.entropy Demo.ga_2x5
              = ([], Some ga') /\
            ga_Best ga' = {| indi_Genome := 100; indi_Fitness := sentinel |} /\
            ~ In (ga_Best ga') (first_individuals (ga_Populations ga')))
         [pos_zero; pos_inf; neg_inf; NaN; one].
Proof.
  split; [vm_compute; reflexivity|]. split.
  - cbv zeta. repeat (split; [vm_compute; reflexivity|]).
    split.
    + vm_compute. intros [H|[H|[]]]; discriminate.
    + intros [(indi & Hin & Hfit) _]. vm_compute in Hin.
      destruct Hin as [<-|[<-|[]]]; vm_compute in Hfit; discriminate.
  - repeat (apply Forall_cons;
            [cbv zeta; repeat (split; [vm_compute; reflexivity|]);
             vm_compute; intros [H|[H|[]]]; discriminate|]).
    apply Forall_nil.
Qed.


Lemma SFleb_not_NaN (a b : float64) :
  SFleb a b = true -> is_NaN a = false /\ is_NaN b = false.
Proof.
  unfold SFleb.
  destruct a as [[]|[]| |[] m1 e1], b as [[]|[]| |[] m2 e2]; simpl; intuition congruence.
Qed.

Lemma ascending_has_numbers {Genome : Type} (indis : Individuals Genome) :
  ascending indis -> (2 <= length indis)%nat -> Forall has_number indis.
Proof.
  intros Hasc Hlen. apply Forall_forall. intros x Hin.
  apply In_nth_error in Hin. destruct Hin as [i Hi].
  destruct (nth_error indis (S i)) as [y|] eqn:Hnext.
  - apply (SFleb_not_NaN _ _ (Hasc i x y Hi Hnext)).
  - apply nth_error_None in Hnext.
    assert (Hlt : (i < length indis)%nat) by (apply nth_error_Some; congruence).
    destruct i as [|i']; [lia|].
    destruct (nth_error indis i') as [w|] eqn:Hprev.
    + apply (SFleb_not_NaN _ _ (Hasc i' w x Hprev Hi)).
    + apply nth_error_None in Hprev. lia.
Qed.

(** C4: on the valid GA of two populations of five individuals, with
    genomes that evaluate to themselves but for 17, which evaluates to
    NaN, [Initialize] returns with the first population in the order 18,
    19, 20, 17, 16: the pair 20, 17 is not in ascending order and the
    individual at index 0 is not the fittest.  No order of these five
    individuals is ascending on every adjacent pair, whatever the sort. *)
Lemma Initialize_unsorted_with_NaN :
  let ga' := Demo.initialized Demo_edge.genome_with_NaN pos_inf Demo.ga_2x5 in
  GA_Validate Demo.ga_2x5 = None /\
  @Initialize Z Z Demo_edge.genome_with_NaN pos_inf Demo.entropy Demo.ga_2x5
    = ([], Some ga') /\
  map (fun pop => map indi_Genome (pop_Individuals pop)) (ga_Populations ga')
    = [[18; 19; 20; 17; 16]; [26; 27; 28; 29; 30]] /\
  exists pop,
    nth_error (ga_Populations ga') 0 = Some pop /\
    ~ ascending (pop_Individuals pop) /\
    ~ best_first (pop_Individuals pop) /\
    (forall indis, Permutation indis (pop_Individuals pop) -> ~ ascending indis).
Proof.
  cbv zeta. repeat (split; [vm_compute; reflexivity|]).
  eexists. split; [vm_compute; reflexivity|]. simpl pop_Individuals.
  split; [|split].
  - intros H. pose proof (H 2%nat _ _ eq_refl eq_refl) as H2.
    vm_compute in H2. discriminate.
  - intros H. pose proof (H _ _ eq_refl) as H2.
    rewrite Forall_forall in H2.
    pose proof (H2 {| indi_Genome := 17; indi_Fitness := NaN |}) as H3.
    assert (Hle : SFleb (Demo.fitness_of_Z 18) NaN = true).
    { apply H3. simpl. auto. }
    vm_compute in Hle. discriminate.
  - intros indis Hperm Hasc.
    assert (Hnum : Forall has_number indis).
    { apply ascending_has_numbers; [exact Hasc|].
      rewrite (Permutation_length Hperm). simpl. lia. }
    rewrite Forall_forall in Hnum.
    assert (Hin : In {| indi_Genome := 17; indi_Fitness := NaN |} indis).
    { eapply Permutation_in; [apply Permutation_sym; exact Hperm|]. simpl. auto. }
    apply Hnum in Hin. discriminate.
Qed.

Lemma Best_after_scan_witness :
  let ga' := Demo.initialized Demo.genome_value pos_inf Demo.ga_2x5 in
  @Initialize Z Z Demo.genome_value pos_inf Demo.entropy Demo.ga_2x5 = ([], Some ga') /\
  In (ga_Best ga') (first_individuals (ga_Populations ga')).
Proof.
  cbv zeta. split; [vm_compute; reflexivity|].
  refine (proj1 (proj2 (proj1 (Best_after_scan (GI := Demo.genome_value) pos_inf Demo.speciate)
                         Demo.entropy Demo.ga_2x5 []
                         (Demo.initialized Demo.genome_value pos_inf Demo.ga_2x5)
                         Demo.MakeGenome _ _)) _).
  - vm_compute; reflexivity.
  - vm_compute; reflexivity.
  - exists (Demo.individual 16). split; [left; vm_compute; reflexivity | vm_compute; reflexivity].
Defined.

Lemma Best_fitness_non_increasing_witness :
  let ga := Demo.initialized Demo.genome_value pos_inf Demo.ga_species in
  let ga' := Demo.evolved 2 ga in
  @Enhance_seq Z Z Demo.genome_value Demo.speciate [Demo.clock; Demo.clock] ga
    = (trace_of (@Enhance_seq Z Z Demo.genome_value Demo.speciate [Demo.clock; Demo.clock] ga),
       Some ga') /\
  SFltb (indi_Fitness (ga_Best ga)) (indi_Fitness (ga_Best ga')) = false.
Proof.
  cbv zeta. split; [vm_compute; reflexivity|].
  refine (proj1 (proj2 (Best_fitness_non_increasing (GI := Demo.genome_value) Demo.speciate
                          [Demo.clock; Demo.clock]
                          (Demo.initialized Demo.genome_value pos_inf Demo.ga_species)
                          (trace_of (@Enhance_seq Z Z Demo.genome_value Demo.speciate
                             [Demo.clock; Demo.clock]
                             (Demo.initialized Demo.genome_value pos_inf Demo.ga_species)))
                          (Demo.evolved 2 (Demo.initialized Demo.genome_value pos_inf Demo.ga_species))
                          _))).
  vm_compute; reflexivity.
Defined.


Lemma populations_sorted_witness :
  let ga := Demo.initialized Demo.genome_value pos_inf Demo.ga_2x5 in
  Forall (fun pop => ascending (pop_Individuals pop) /\ best_first (pop_Individuals pop))
         (ga_Populations ga) /\
  Forall (fun pop => ascending (pop_Individuals pop) /\ best_first (pop_Individuals pop))
         (ga_Populations (Demo.evolved 1 ga)).
Proof.
  cbv zeta.
  pose proof (populations_sorted (GI := Demo.genome_value) (Rand := Z) pos_inf Demo.speciate
                Demo_fitness_is_a_number) as [Hinit Henh].
  split.
  - refine (Hinit Demo.entropy Demo.ga_2x5 [] _ _). vm_compute; reflexivity.
  - refine (Henh Demo.clock (Demo.initialized Demo.genome_value pos_inf Demo.ga_2x5)
                 [EvApply 0 None; EvApply 1 None] _ _).
    vm_compute; reflexivity.
Defined.


Lemma GA_Validate_order_witness :
  let ga := Demo.new_GA {| NPopulations := 2; NSpecies := 0; NIndividuals := 5 |}
                        (Some Demo.swap_ends) 0 in
  GA_Validate ga = Some "'MigFrequency' should be strictly higher than 0"%string /\
  GA_Validate Demo.ga_species = None.
Proof.
  cbv zeta. split.
  - refine (proj1 (proj2 (proj2 (proj2 (proj2 (GA_Validate_order _)))))
              _ _ Demo.decrease _ _ _ _);
      try (vm_compute; reflexivity); try discriminate.
  - refine (proj1 (proj2 (proj2 (proj2 (proj2 (proj2 (GA_Validate_order Demo.ga_species))))))
              _ _ Demo.decrease _ _ _);
      try (vm_compute; reflexivity); try discriminate.
    right. vm_compute. discriminate.
Defined.

Lemma enhance_worker_evolution_witness :
  let pop := {| pop_Individuals := map Demo.individual [16; 17; 18; 19; 20];
                pop_Age := 0; pop_Generations := 0; pop_ID := 0%nat; pop_rng := 15 |} in
  exists (tr : list Event) pop',
    @enhance_worker Z Z Demo.genome_value Demo.speciate Demo.clock Demo.ga_species 0 pop
      = (tr, Some pop') /\
    filter is_apply tr = [EvApply 0 (Some 0%nat); EvApply 0 (Some 1%nat)] /\
    length (pop_Individuals pop') = 5%nat /\
    Forall (@evaluated Z Demo.genome_value) (pop_Individuals pop').
Proof.
  cbv zeta.
  destruct (enhance_worker_evolution (GI := Demo.genome_value) Demo.speciate Demo.clock
              Demo.ga_species 0
              {| pop_Individuals := map Demo.individual [16; 17; 18; 19; 20];
                 pop_Age := 0; pop_Generations := 0; pop_ID := 0%nat; pop_rng := 15 |}
              Demo.decrease eq_refl)
    as (tr & pop' & Hw & Hspecies & _ & Heval & _).
  exists tr, pop'. split; [exact Hw|].
  assert (Hpos : 0 < NSpecies (ga_Topology Demo.ga_species)) by (vm_compute; reflexivity).
  destruct (Hspecies Hpos) as (Htr & _ & _ & Hcount).
  split; [exact Htr|]. split; [|exact Heval].
  apply Hcount.
  - vm_compute. apply Permutation_refl.
  - intros sp _. simpl. apply length_map.
Defined.

Lemma generation_counters_lockstep_witness :
  let ga1 := Demo.initialized Demo.genome_value pos_inf Demo.ga_species in
  let ga' := Demo.evolved 3 ga1 in
  Forall (fun pop => pop_Generations pop = ga_Generations ga') (ga_Populations ga') /\
  ga_Generations ga' = 3.
Proof.
  cbv zeta.
  destruct (proj2 (generation_counters_lockstep (GI := Demo.genome_value) pos_inf Demo.speciate)
              Demo.entropy [Demo.clock; Demo.clock; Demo.clock] Demo.ga_species []
              (Demo.initialized Demo.genome_value pos_inf Demo.ga_species)
              (trace_of (@Enhance_seq Z Z Demo.genome_value Demo.speciate
                           [Demo.clock; Demo.clock; Demo.clock]
                           (Demo.initialized Demo.genome_value pos_inf Demo.ga_species)))
              (Demo.evolved 3 (Demo.initialized Demo.genome_value pos_inf Demo.ga_species))
              Demo_decrease_keeps_generations Demo_swap_ends_keeps_generations)
    as [Hlock Hcount].
  - vm_compute; reflexivity.
  - vm_compute; reflexivity.
  - vm_compute; reflexivity.
  - split; [exact Hlock|]. apply Hcount. vm_compute. discriminate.
Defined.

Lemma Initialize_keeps_counters_witness :
  let ga := Demo.evolved 3 (Demo.initialized Demo.genome_value pos_inf Demo.ga_species) in
  let ga' := Demo.initialized Demo.genome_value pos_inf ga in
  ga_Generations ga = 3 /\ ga_Age ga = 15 /\
  ga_Generations ga' = 3 /\ ga_Age ga' = 15 /\
  ga_Generations (Demo.evolved 1 ga') = 4.
Proof.
  cbv zeta. split; [vm_compute; reflexivity|]. split; [vm_compute; reflexivity|].
  pose proof (Initialize_keeps_counters (GI := Demo.genome_value) pos_inf Demo.speciate
                Demo.entropy
                (Demo.evolved 3 (Demo.initialized Demo.genome_value pos_inf Demo.ga_species))
                []
                (Demo.initialized Demo.genome_value pos_inf
                   (Demo.evolved 3 (Demo.initialized Demo.genome_value pos_inf Demo.ga_species))))
    as H.
  assert (Hinit : @Initialize Z Z Demo.genome_value pos_inf Demo.entropy
                (Demo.evolved 3 (Demo.initialized Demo.genome_value pos_inf Demo.ga_species))
              = ([], Some (Demo.initialized Demo.genome_value pos_inf
                   (Demo.evolved 3 (Demo.initialized Demo.genome_value pos_inf Demo.ga_species)))))
    by (vm_compute; reflexivity).
  destruct (H Hinit) as (_ & Hgen & Hage & _ & Hnext).
  split; [rewrite Hgen; vm_compute; reflexivity|].
  split; [rewrite Hage; vm_compute; reflexivity|].
  destruct (Hnext Demo.clock) as [_ Hstep].
  refine (proj1 (Hstep
            (trace_of (@Enhance Z Z Demo.genome_value Demo.speciate Demo.clock
               (Demo.initialized Demo.genome_value pos_inf
                  (Demo.evolved 3
                     (Demo.initialized Demo.genome_value pos_inf Demo.ga_species)))))
            _ _)).
  vm_compute; reflexivity.
Defined.

(** * Further properties of the engine *)

Lemma SFltb_leb_trans (a b c : float64) :
  SFltb a b = true -> SFleb b c = true -> SFltb a c = true.
Proof.
  unfold SFltb, SFleb.
  destruct a as [[]|[]| |[] m1 e1], b as [[]|[]| |[] m2 e2], c as [[]|[]| |[] m3 e3];
    simpl; try congruence;
    change (Pos.compare_cont Eq) with Pos.compare;
    destruct (Z.compare_spec e1 e2), (Z.compare_spec e2 e3), (Z.compare_spec e1 e3);
    try congruence; try lia; subst;
    destruct (Pos.compare_spec m1 m2), (Pos.compare_spec m2 m3), (Pos.compare_spec m1 m3);
    simpl; try congruence; try lia.
Qed.

Lemma SFltb_neg_inf (a : float64) : SFltb a neg_inf = false.
Proof. destruct a as [[]|[]| |[] m e]; reflexivity. Qed.

Lemma div_succ (g f : Z) :
  0 < f -> 0 <= g ->
  (g + 1) / f = g / f + (if (g + 1) mod f =? 0 then 1 else 0).
Proof.
  intros Hf Hg.
  pose proof (Z.div_mod g f ltac:(lia)) as Hdm.
  pose proof (Z.mod_pos_bound g f Hf) as Hb.
  destruct (Z.eq_dec (g mod f) (f - 1)) as [Hlast|Hnot].
  - assert (Hs : g + 1 = f * (g / f + 1) + 0) by lia.
    assert (Hm : (g + 1) mod f = 0)
      by (symmetry; apply (Z.mod_unique_pos (g + 1) f (g / f + 1) 0); lia).
    assert (Hd : (g + 1) / f = g / f + 1)
      by (symmetry; apply (Z.div_unique_pos (g + 1) f (g / f + 1) 0); lia).
    rewrite Hm, Hd. reflexivity.
  - assert (Hs : g + 1 = f * (g / f) + (g mod f + 1)) by lia.
    assert (Hm : (g + 1) mod f = g mod f + 1)
      by (symmetry; apply (Z.mod_unique_pos (g + 1) f (g / f) (g mod f + 1)); lia).
    assert (Hd : (g + 1) / f = g / f)
      by (symmetry; apply (Z.div_unique_pos (g + 1) f (g / f) (g mod f + 1)); lia).
    rewrite Hm, Hd. destruct (Z.eqb_spec (g mod f + 1) 0); lia.
Qed.

Section MoreProperties.

Context {Genome Rand : Type} {GI : GenomeI Genome}.

Implicit Types (ga : GA Genome Rand) (pop : Population Genome Rand).
Implicit Types (pops : Populations Genome Rand) (indis : Individuals Genome).

(** ** The scan for the best individual *)

Lemma findBest_loop_populated pops :
  forall cur best : Individual Genome,
    findBest_loop pops cur = Some best -> Forall populated pops.
Proof.
  induction pops as [|pop rest IH]; simpl; intros cur best H; [constructor|].
  destruct (pop_Individuals pop) as [|first others] eqn:Hpop; [discriminate|].
  constructor; [unfold populated; congruence | eapply IH; eauto].
Qed.

(** X1: [findBest] returns exactly when every population has at least one
    individual; on an empty population the read of [Individuals[0]]
    panics. *)
Theorem findBest_returns_iff ga :
  result_of (findBest ga) <> None <-> Forall populated (ga_Populations ga).
Proof.
  unfold findBest. split.
  - destruct (findBest_loop _ _) as [best|] eqn:Hloop; [|simpl; congruence].
    intros _. eapply findBest_loop_populated; eauto.
  - intros Hpop. pose proof (findBest_loop_total (ga_Populations ga) Hpop (ga_Best ga)) as H.
    destruct (findBest_loop _ _); [simpl; discriminate | congruence].
Qed.

Lemma findBest_loop_fixed pops :
  forall cur : Individual Genome,
    Forall populated pops ->
    (forall f, In f (first_individuals pops) ->
               SFltb (indi_Fitness f) (indi_Fitness cur) = false) ->
    findBest_loop pops cur = Some cur.
Proof.
  induction pops as [|pop rest IH]; simpl; intros cur Hpop Hmin; [reflexivity|].
  inversion Hpop as [|? ? Hhead Hrest]; subst.
  destruct (pop_Individuals pop) as [|first others] eqn:Hind; [contradiction Hhead; exact Hind|].
  simpl in Hmin. rewrite (Hmin first (or_introl eq_refl)).
  apply IH; auto.
Qed.

(** X2: a second scan changes nothing: after [findBest] has returned,
    [findBest] returns the same GA again. *)
Theorem findBest_idempotent ga (tr : list Event) ga' :
  findBest ga = (tr, Some ga') -> findBest ga' = ([], Some ga').
Proof.
  intros H. apply findBest_returns in H. destruct H as (best & Hloop & -> & _).
  unfold findBest. simpl.
  pose proof (findBest_loop_populated _ _ _ Hloop) as Hpop.
  apply findBest_loop_spec in Hloop. destruct Hloop as [_ Hmin].
  rewrite (findBest_loop_fixed _ best Hpop Hmin). reflexivity.
Qed.

Lemma findBest_loop_earliest pops :
  forall cur best : Individual Genome,
    findBest_loop pops cur = Some best ->
    best = cur \/
    exists pre pop post others,
      pops = pre ++ pop :: post /\
      pop_Individuals pop = best :: others /\
      SFltb (indi_Fitness best) (indi_Fitness cur) = true /\
      (forall f, In f (first_individuals pre) -> has_number f ->
                 SFltb (indi_Fitness best) (indi_Fitness f) = true) /\
      (forall f, In f (first_individuals post) ->
                 SFltb (indi_Fitness f) (indi_Fitness best) = false).
Proof.
  induction pops as [|pop rest IH]; simpl; intros cur best H.
  - inversion H; subst. auto.
  - destruct (pop_Individuals pop) as [|first others] eqn:Hpop; [discriminate|].
    pose proof (findBest_loop_spec _ _ _ H) as [_ Hmin].
    apply IH in H.
    destruct (SFltb (indi_Fitness first) (indi_Fitness cur)) eqn:Hlt.
    + right. destruct H as [->|(pre & pop' & post & others' & -> & Hind & Hbc & Hpre & Hpost)].
      * exists [], pop, rest, others. simpl. repeat split; auto; intros f [].
      * exists (pop :: pre), pop', post, others'. simpl. rewrite Hpop. simpl.
        repeat split; auto.
        -- eapply SFltb_trans; eauto.
        -- intros f [<-|Hin] Hnum; auto.
    + destruct H as [->|(pre & pop' & post & others' & -> & Hind & Hbc & Hpre & Hpost)];
        [left; reflexivity|].
      right. exists (pop :: pre), pop', post, others'. simpl. rewrite Hpop. simpl.
      repeat split; auto.
      intros f [<-|Hin] Hnum; auto.
      eapply SFltb_leb_trans; [exact Hbc|].
      apply SFleb_of_not_ltb; auto.
      apply SFltb_not_NaN in Hbc. tauto.
Qed.

(** X3: when the scan of [findBest] replaces [Best], the new [Best] is
    the individual at index 0 of some population, it is strictly fitter
    than the previous [Best] and than the first individual of every
    earlier population whose fitness is a number, and no first individual
    of a later population is strictly fitter than it: among first
    individuals of equal minimum fitness the earliest population wins. *)
Theorem findBest_earliest_minimum ga (tr : list Event) ga' :
  findBest ga = (tr, Some ga') ->
  ga_Best ga' = ga_Best ga \/
  exists pre pop post others,
    ga_Populations ga = pre ++ pop :: post /\
    pop_Individuals pop = ga_Best ga' :: others /\
    SFltb (indi_Fitness (ga_Best ga')) (indi_Fitness (ga_Best ga)) = true /\
    (forall f, In f (first_individuals pre) -> has_number f ->
               SFltb (indi_Fitness (ga_Best ga')) (indi_Fitness f) = true) /\
    (forall f, In f (first_individuals post) ->
               SFltb (indi_Fitness f) (indi_Fitness (ga_Best ga')) = false).
Proof.
  intros H. apply findBest_returns in H. destruct H as (best & Hloop & -> & _).
  simpl. apply findBest_loop_earliest. exact Hloop.
Qed.

(** X4: a [Best] whose fitness is NaN or negative infinity is never
    replaced, whatever the populations become over any sequence of
    [Enhance] calls; and a [Best] that has been replaced never carries a
    NaN fitness. *)
Theorem Best_sticks
    (speciate : Population Genome Rand -> Z -> list (Population Genome Rand))
    (clks : list Clock) ga (tr : list Event) ga' :
  Enhance_seq speciate clks ga = (tr, Some ga') ->
  (is_NaN (indi_Fitness (ga_Best ga)) = true \/ indi_Fitness (ga_Best ga) = neg_inf ->
   ga_Best ga' = ga_Best ga) /\
  (ga_Best ga' <> ga_Best ga -> is_NaN (indi_Fitness (ga_Best ga')) = false).
Proof.
  intros H. apply Enhance_seq_Best in H. split.
  - intros Hstuck. destruct H as [Heq|Hlt]; [exact Heq|]. exfalso.
    destruct Hstuck as [Hnan|Hinf].
    + apply SFltb_not_NaN in Hlt. destruct Hlt as [_ Hnum]. congruence.
    + rewrite Hinf, SFltb_neg_inf in Hlt. discriminate.
  - intros Hneq. destruct H as [Heq|Hlt]; [contradiction|].
    apply SFltb_not_NaN in Hlt. tauto.
Qed.

(** ** Panics of Enhance *)

(** X5: with several populations, a Migrator and a zero migration
    frequency, [Enhance] panics on the remainder of the gate, before any
    call to the Migrator, the Model or the logger. *)
Theorem Enhance_zero_frequency_panics
    (speciate : Population Genome Rand -> Z -> list (Population Genome Rand))
    (clk : Clock) ga :
  1 < NPopulations (ga_Topology ga) ->
  ga_Migrator ga <> None ->
  ga_MigFrequency ga = 0 ->
  Enhance speciate clk ga = ([], None).
Proof.
  intros Hn Hmig Hfreq. unfold Enhance, migrate. simpl.
  apply Z.ltb_lt in Hn. rewrite Hn.
  destruct (ga_Migrator ga) as [migrator|]; [|congruence].
  rewrite Hfreq. reflexivity.
Qed.

Lemma migrate_without_Migrator ga :
  ga_Migrator ga = None -> migrate ga = ([], Some ga).
Proof.
  intros H. unfold migrate. rewrite H.
  destruct (1 <? NPopulations (ga_Topology ga)); reflexivity.
Qed.

Lemma enhance_worker_nil_Model
      (speciate : Population Genome Rand -> Z -> list (Population Genome Rand))
      (clk : Clock) ga (j : nat) pop :
  ga_Model ga = None -> NSpecies (ga_Topology ga) <= 0 ->
  enhance_worker speciate clk ga j pop = ([], None).
Proof.
  intros Hmodel Hn. unfold enhance_worker, evolve, apply_model.
  apply Z.ltb_ge in Hn. rewrite Hn, Hmodel. reflexivity.
Qed.

(** X6: without species and without a Migrator, [Enhance] on a GA whose
    Model is nil returns exactly when there is no population: the nil
    Model is dereferenced by every worker. *)
Theorem Enhance_nil_Model
    (speciate : Population Genome Rand -> Z -> list (Population Genome Rand))
    (clk : Clock) ga :
  ga_Model ga = None ->
  ga_Migrator ga = None ->
  NSpecies (ga_Topology ga) <= 0 ->
  (result_of (Enhance speciate clk ga) <> None <-> ga_Populations ga = []).
Proof.
  intros Hmodel Hmig Hn. unfold Enhance.
  rewrite migrate_without_Migrator by exact Hmig.
  rewrite result_bind. simpl. rewrite result_bind, go_range_result.
  destruct (ga_Populations ga) as [|pop rest].
  - simpl. unfold findBest. simpl. split; [reflexivity | discriminate].
  - simpl. rewrite enhance_worker_nil_Model by assumption.
    simpl. split; [congruence | discriminate].
Qed.

(** ** Enhance returns *)

Lemma GA_Validate_same_settings ga ga' :
  same_settings ga ga' -> GA_Validate ga' = GA_Validate ga.
Proof.
  intros (Hmk & Htopo & Hmodel & Hmig & Hfreq & _). unfold GA_Validate.
  rewrite Hmk, Htopo, Hmodel, Hmig, Hfreq. reflexivity.
Qed.

Lemma GA_Validate_nil ga :
  GA_Validate ga = None ->
  ga_MakeGenome ga <> None /\
  Topology_Validate (ga_Topology ga) = None /\
  (exists model, ga_Model ga = Some model) /\
  (ga_Migrator ga <> None -> 1 <= ga_MigFrequency ga).
Proof.
  unfold GA_Validate.
  destruct (ga_MakeGenome ga); [|discriminate].
  destruct (Topology_Validate (ga_Topology ga)); [discriminate|].
  destruct (ga_Model ga) as [model|]; [|discriminate].
  destruct (Model_Validate model); [discriminate|].
  destruct (ga_Migrator ga).
  - destruct (Z.ltb_spec (ga_MigFrequency ga) 1); [discriminate|].
    intros _. repeat split; eauto; discriminate.
  - intros _. repeat split; eauto; try discriminate. congruence.
Qed.

Lemma migrate_total ga :
  (ga_Migrator ga <> None -> ga_MigFrequency ga <> 0) ->
  result_of (migrate ga) <> None.
Proof.
  intros Hfreq. unfold migrate, int_rem.
  destruct (1 <? NPopulations (ga_Topology ga)); [|discriminate].
  destruct (ga_Migrator ga) as [migrator|]; [|discriminate].
  destruct (Z.eqb_spec (ga_MigFrequency ga) 0) as [H0|_];
    [exfalso; apply Hfreq; [discriminate | exact H0]|].
  destruct (_ =? 0); [|discriminate].
  destruct (migrator _ _). simpl. discriminate.
Qed.

Lemma evolve_populated
      (speciate : Population Genome Rand -> Z -> list (Population Genome Rand))
      ga (model : Model Genome Rand) (j : nat) pop (tr : list Event) pop1 :
  ga_Model ga = Some model ->
  (NSpecies (ga_Topology ga) <= 0 -> populated (Model_Apply model pop)) ->
  (0 < NSpecies (ga_Topology ga) ->
   merge (map (Model_Apply model) (speciate pop (NSpecies (ga_Topology ga)))) <> []) ->
  evolve speciate ga j pop = (tr, Some pop1) ->
  populated pop1.
Proof.
  intros Hmodel Hplain Hspecies. unfold evolve.
  destruct (Z.ltb_spec 0 (NSpecies (ga_Topology ga))) as [Hn|Hn].
  - rewrite (for_range_apply_model ga model j _ Hmodel). simpl.
    intros H; inversion H; subst. unfold populated. simpl. auto.
  - unfold apply_model. rewrite Hmodel. simpl.
    intros H; inversion H; subst. auto.
Qed.

Lemma sorted_evaluated_populated indis :
  indis <> [] -> Individuals_Sort (Individuals_Evaluate indis) <> [].
Proof.
  intros Hne Hnil. apply Hne. apply length_zero_iff_nil.
  rewrite <- Individuals_Evaluate_length, <- Individuals_Sort_length, Hnil.
  reflexivity.
Qed.

Lemma Enhance_returns_populated
      (speciate : Population Genome Rand -> Z -> list (Population Genome Rand))
      (clk : Clock) ga :
  GA_Validate ga = None ->
  Forall populated (ga_Populations ga) ->
  (forall migrator, ga_Migrator ga = Some migrator -> migrator_keeps_populated migrator) ->
  (forall model pop, ga_Model ga = Some model -> populated pop ->
     (NSpecies (ga_Topology ga) <= 0 -> populated (Model_Apply model pop)) /\
     (0 < NSpecies (ga_Topology ga) ->
      merge (map (Model_Apply model) (speciate pop (NSpecies (ga_Topology ga)))) <> [])) ->
  exists (tr : list Event) ga',
    Enhance speciate clk ga = (tr, Some ga') /\
    Forall populated (ga_Populations ga') /\
    same_settings ga ga'.
Proof.
  intros Hvalid Hpops Hmigrator Hmodel.
  destruct (GA_Validate_nil ga Hvalid) as (_ & _ & (model & Hm) & Hfreq).
  destruct (Enhance speciate clk ga) as [tr [ga'|]] eqn:Hrun.
  - exists tr, ga'. split; [reflexivity|].
    pose proof (Enhance_frame _ _ _ _ _ Hrun) as (Hsame & _).
    split; [|exact Hsame].
    apply Enhance_returns in Hrun.
    destruct Hrun as (ga1 & pops & best & tr1 & tr2 & Hmig & Hrange & Hloop & -> & _).
    simpl. eapply findBest_loop_populated; eauto.
  - exfalso. revert Hrun. unfold Enhance.
    set (ga0 := set_ga_Generations ga (wrap64 (ga_Generations ga + 1))).
    destruct (migrate ga0) as [tr1 [ga1|]] eqn:Hmig;
      [|exfalso; apply (migrate_total ga0);
        [simpl; intros Hne; specialize (Hfreq Hne); lia | rewrite Hmig; reflexivity]].
    pose proof (migrate_returns _ _ _ Hmig) as ((_ & Htopo & Hmodel1 & _) & _ & _ & _ & Hmoved).
    simpl in Htopo, Hmodel1, Hmoved.
    assert (Hpops1 : Forall populated (ga_Populations ga1)).
    { destruct Hmoved as [->|(migrator & Hmg & ->)]; [exact Hpops|].
      apply (Hmigrator migrator Hmg). exact Hpops. }
    unfold bind at 1.
    destruct (go_range (clk_order clk) (ga_Populations ga1) (enhance_worker speciate clk ga1))
      as [tr2 [pops|]] eqn:Hgo.
    + assert (Hpops' : Forall populated pops).
      { destruct (go_range_returns _ _ _ _ _ Hgo) as (tr0 & Hrange).
        apply for_range_returns in Hrange. clear - Hrange Hpops1 Hmodel Hm Htopo Hmodel1.
        induction Hrange as [|pop pop' l l' (j & tr' & Hw) _ IH]; [constructor|].
        inversion Hpops1; subst. constructor; [|auto].
        apply enhance_worker_returns in Hw.
        destruct Hw as (tr3 & pop1 & Hevolve & _ & Hind & _).
        unfold populated. rewrite Hind. apply sorted_evaluated_populated.
        rewrite <- Hmodel1 in Hm.
        destruct (Hmodel model pop) as [Hplain Hspecies]; [congruence | assumption |].
        eapply (evolve_populated speciate ga1 model); eauto; rewrite Htopo; auto. }
      unfold bind. unfold findBest. simpl.
      pose proof (findBest_loop_total pops Hpops' (ga_Best ga1)) as Hbest.
      destruct (findBest_loop pops (ga_Best ga1)); [|congruence].
      simpl. destruct tr1; discriminate.
    + exfalso.
      apply (go_range_total (clk_order clk) (enhance_worker speciate clk ga1)
               (ga_Populations ga1)); [|rewrite Hgo; reflexivity].
      intros j pop _. apply enhance_worker_total. rewrite Hmodel1, Hm. discriminate.
Qed.

(** X7: a GA that [GA.Validate] accepts, whose populations all have an
    individual and whose Migrator and Model (through the species, when
    there are some) never leave a population without individuals, can be
    enhanced any number of times: every [Enhance] of the sequence
    returns, and the populations still all have an individual. *)
Theorem Enhance_seq_returns
    (speciate : Population Genome Rand -> Z -> list (Population Genome Rand))
    (clks : list Clock) :
  forall ga,
    GA_Validate ga = None ->
    Forall populated (ga_Populations ga) ->
    (forall migrator, ga_Migrator ga = Some migrator -> migrator_keeps_populated migrator) ->
    (forall model pop, ga_Model ga = Some model -> populated pop ->
       (NSpecies (ga_Topology ga) <= 0 -> populated (Model_Apply model pop)) /\
       (0 < NSpecies (ga_Topology ga) ->
        merge (map (Model_Apply model) (speciate pop (NSpecies (ga_Topology ga)))) <> [])) ->
    exists (tr : list Event) ga',
      Enhance_seq speciate clks ga = (tr, Some ga') /\
      Forall populated (ga_Populations ga') /\
      same_settings ga ga'.
Proof.
  induction clks as [|clk rest IH]; intros ga Hvalid Hpops Hmigrator Hmodel.
  - exists [], ga. simpl. unfold same_settings. auto 10.
  - destruct (Enhance_returns_populated speciate clk ga Hvalid Hpops Hmigrator Hmodel)
      as (tr1 & ga1 & Hstep & Hpops1 & Hsame).
    pose proof Hsame as (Hmk & Htopo & Hm & Hmg & Hfreq & Hlog).
    destruct (IH ga1) as (tr2 & ga' & Hrest & Hpops' & Hsame').
    + rewrite (GA_Validate_same_settings ga ga1 Hsame). exact Hvalid.
    + exact Hpops1.
    + rewrite Hmg. exact Hmigrator.
    + rewrite Hm, Htopo. exact Hmodel.
    + exists (tr1 ++ tr2), ga'. simpl. rewrite Hstep. unfold bind. rewrite Hrest.
      split; [reflexivity|]. split; [exact Hpops'|].
      destruct Hsame' as (H1 & H2 & H3 & H4 & H5 & H6).
      unfold same_settings. repeat split; congruence.
Qed.

(** ** What Enhance keeps *)

Lemma migrate_not_due ga (tr : list Event) ga1 :
  ~ migration_due ga (ga_Generations ga) ->
  migrate ga = (tr, Some ga1) -> tr = [] /\ ga1 = ga.
Proof.
  unfold migrate, migration_due. intros Hnot.
  destruct (Z.ltb_spec 1 (NPopulations (ga_Topology ga))) as [Hn|Hn];
    [|intros H; inversion H; auto].
  destruct (ga_Migrator ga) as [migrator|]; [|intros H; inversion H; auto].
  destruct (int_rem (ga_Generations ga) (ga_MigFrequency ga)) as [r|]; [|discriminate].
  destruct (Z.eqb_spec r 0) as [->|Hr]; [|intros H; inversion H; auto].
  exfalso. apply Hnot. repeat split; auto. discriminate.
Qed.

Lemma for_range_length {A B : Type} (f : nat -> A -> M B) (l : list A)
      (j0 : nat) (tr : list Event) (bs : list B) :
  for_range j0 l f = (tr, Some bs) -> length bs = length l.
Proof.
  intros H. apply for_range_returns in H. symmetry. eapply Forall2_length; eauto.
Qed.

(** X8: an [Enhance] that returns has left the user-provided fields of
    the GA as they were and has added the elapsed time to its age; the
    number of populations is unchanged when no migration is due, and also
    when the Migrator keeps the length of the slice it is handed. *)
Theorem Enhance_keeps_settings_and_size
    (speciate : Population Genome Rand -> Z -> list (Population Genome Rand))
    (clk : Clock) ga (tr : list Event) ga' :
  Enhance speciate clk ga = (tr, Some ga') ->
  same_settings ga ga' /\
  ga_Age ga' = wrap64 (ga_Age ga + ga_elapsed clk) /\
  (~ migration_due ga (wrap64 (ga_Generations ga + 1)) ->
   length (ga_Populations ga') = length (ga_Populations ga) /\
   ga_rng ga' = ga_rng ga) /\
  ((forall migrator, ga_Migrator ga = Some migrator -> migrator_keeps_length migrator) ->
   length (ga_Populations ga') = length (ga_Populations ga)).
Proof.
  intros H. pose proof (Enhance_frame _ _ _ _ _ H) as (Hsame & _ & Hage).
  split; [exact Hsame|]. split; [exact Hage|].
  apply Enhance_returns in H.
  destruct H as (ga1 & pops & best & tr1 & tr2 & Hmig & Hrange & _ & -> & _).
  simpl. apply for_range_length in Hrange. rewrite Hrange. split.
  - intros Hnot. apply migrate_not_due in Hmig; [|exact Hnot].
    destruct Hmig as [_ ->]. simpl. auto.
  - intros Hlen. apply migrate_returns in Hmig.
    destruct Hmig as (_ & _ & _ & _ & [->|(migrator & Hm & ->)]); [reflexivity|].
    simpl in Hm. apply (Hlen migrator Hm).
Qed.

(** ** The calls of Enhance *)

Lemma filter_all {A : Type} (p : A -> bool) (l : list A) :
  Forall (fun x => p x = true) l -> filter p l = l.
Proof. induction 1 as [|x rest Hx _ IH]; simpl; [|rewrite Hx, IH]; reflexivity. Qed.

Lemma filter_none {A : Type} (p : A -> bool) (l : list A) :
  Forall (fun x => p x = false) l -> filter p l = [].
Proof. induction 1 as [|x rest Hx _ IH]; simpl; [|rewrite Hx, IH]; reflexivity. Qed.

Lemma nth_error_set_slot_same {A : Type} (l : list A) :
  forall (j : nat) (x y : A),
    nth_error l j = Some y -> nth_error (set_slot j x l) j = Some x.
Proof.
  induction l as [|a rest IH]; intros [|j] x y H; simpl in *; try discriminate; eauto.
Qed.

Lemma nth_error_set_slot_other {A : Type} (l : list A) :
  forall (i j : nat) (x : A),
    i <> j -> nth_error (set_slot j x l) i = nth_error l i.
Proof.
  induction l as [|a rest IH]; intros [|i] [|j] x H; simpl; try reflexivity;
    [contradiction | apply IH; congruence].
Qed.

Lemma drain_filter_none {B : Type} (p : Event -> bool) (runs : list (M B)) :
  Forall (fun run => Forall (fun e => p e = false) (trace_of run)) runs ->
  filter p (trace_of (drain runs)) = [].
Proof.
  induction 1 as [|run rest Hrun _ IH]; [reflexivity|].
  cbn [drain]. rewrite trace_bind, filter_app, (filter_none p _ Hrun). simpl.
  destruct (result_of run); [|reflexivity].
  rewrite trace_bind, filter_app, IH. simpl.
  destruct (result_of (drain rest)); reflexivity.
Qed.

Lemma interleave_filter_none {B : Type} (p : Event -> bool) (order : list nat) :
  forall runs : list (M B),
    Forall (fun run => Forall (fun e => p e = false) (trace_of run)) runs ->
    filter p (trace_of (interleave order runs)) = [].
Proof.
  induction order as [|j order' IH]; intros runs Hruns; simpl;
    [apply drain_filter_none; exact Hruns|].
  unfold M in *. destruct (nth_error runs j) as [[[|e calls] r]|] eqn:Hj.
  - destruct r; [apply IH; exact Hruns | reflexivity].
  - pose proof (nth_error_Forall _ _ _ _ Hruns Hj) as He. simpl in He.
    inversion He as [|? ? Hhead Hcalls]; subst.
    specialize (IH (set_slot j (calls, r) runs)
                   (set_slot_Forall (fun run : list Event * option B =>
                                       Forall (fun e0 => p e0 = false) (trace_of run))
                      runs j (calls, r) Hruns Hcalls)).
    destruct (interleave order' _) as [tr0 rs]. simpl in *. rewrite Hhead. exact IH.
  - apply IH. exact Hruns.
Qed.

(** In goroutines that all return, the calls that [p] singles out, when
    they are exactly the calls of goroutine [i], come in the order in
    which that goroutine issues them. *)
Lemma drain_filter_slot {B : Type} (p : Event -> bool) (runs : list (M B)) :
  forall (i : nat) (tr : list Event) (bs : list B),
    drain runs = (tr, Some bs) ->
    (forall k run, nth_error runs k = Some run ->
                   Forall (fun e => p e = Nat.eqb k i) (trace_of run)) ->
    filter p tr = match nth_error runs i with Some run => trace_of run | None => [] end.
Proof.
  induction runs as [|run rest IH]; intros i tr bs H Hsep.
  - simpl in H. inversion H. destruct i; reflexivity.
  - cbn [drain] in H.
    pose proof (Hsep 0%nat run eq_refl) as Hhead.
    apply bind_returns in H. destruct H as (tr1 & b & tr' & Hrun & H & ->).
    apply bind_returns in H. destruct H as (tr2 & bs' & tr'' & Hrest & H & ->).
    inversion H; subst. rewrite app_nil_r, filter_app. simpl in Hhead.
    destruct i as [|i]; simpl.
    + rewrite (filter_all p tr1 Hhead).
      replace tr2 with (trace_of (drain rest)) by (rewrite Hrest; reflexivity).
      rewrite drain_filter_none; [apply app_nil_r|].
      apply Forall_forall. intros run' Hin.
      apply In_nth_error in Hin. destruct Hin as [k Hk].
      exact (Hsep (S k) run' Hk).
    + rewrite (filter_none p tr1 Hhead). simpl.
      apply (IH i tr2 bs' Hrest). intros k run' Hk. exact (Hsep (S k) run' Hk).
Qed.

Lemma interleave_filter_slot {B : Type} (p : Event -> bool) (order : list nat) :
  forall (runs : list (M B)) (i : nat) (tr : list Event) (bs : list B),
    interleave order runs = (tr, Some bs) ->
    (forall k run, nth_error runs k = Some run ->
                   Forall (fun e => p e = Nat.eqb k i) (trace_of run)) ->
    filter p tr = match nth_error runs i with Some run => trace_of run | None => [] end.
Proof.
  induction order as [|j order' IH]; intros runs i tr bs H Hsep;
    [eapply drain_filter_slot; eauto|].
  simpl in H. unfold M in *.
  destruct (nth_error runs j) as [[[|e calls] r]|] eqn:Hj.
  - destruct r; [eapply IH; eauto | discriminate].
  - destruct (interleave order' (set_slot j (calls, r) runs)) as [tr' rs] eqn:Hrec.
    inversion H; subst. clear H.
    pose proof (Hsep j _ Hj) as Hrun. simpl in Hrun.
    inversion Hrun as [|? ? He Hcalls]; subst.
    assert (Hsep' : forall k run, nth_error (set_slot j (calls, r) runs) k = Some run ->
                                  Forall (fun e0 => p e0 = Nat.eqb k i) (trace_of run)).
    { intros k run Hk. destruct (Nat.eq_dec k j) as [Hkj|Hkj].
      - rewrite Hkj in *.
        rewrite (nth_error_set_slot_same runs j (calls, r) _ Hj) in Hk.
        inversion Hk; subst. exact Hcalls.
      - rewrite (nth_error_set_slot_other runs k j (calls, r) Hkj) in Hk. eauto. }
    specialize (IH _ i tr' bs Hrec Hsep'). simpl. rewrite He, IH.
    destruct (Nat.eqb_spec j i) as [->|Hji].
    + rewrite (nth_error_set_slot_same runs i (calls, r) _ Hj), Hj. reflexivity.
    + rewrite (nth_error_set_slot_other runs i j (calls, r)) by congruence. reflexivity.
  - eapply IH; eauto.
Qed.

Lemma nth_error_go_runs {A B : Type} (f : nat -> A -> M B) (l : list A) :
  forall j0 k, nth_error (go_runs j0 l f) k = option_map (f (j0 + k)%nat) (nth_error l k).
Proof.
  induction l as [|a rest IH]; intros j0 [|k]; simpl; try reflexivity.
  - rewrite Nat.add_0_r. reflexivity.
  - rewrite IH. replace (S j0 + k)%nat with (j0 + S k)%nat by lia. reflexivity.
Qed.

Lemma go_range_each_returns {A B : Type} (order : list nat) (f : nat -> A -> M B)
      (l : list A) (tr : list Event) (bs : list B) :
  go_range order l f = (tr, Some bs) ->
  length bs = length l /\
  forall k a, nth_error l k = Some a -> exists b, result_of (f k a) = Some b.
Proof.
  intros H. pose proof (interleave_result order (go_runs 0 l f)) as Hr.
  unfold go_range in H. rewrite H in Hr. simpl in Hr. symmetry in Hr.
  apply drain_result in Hr. split.
  - apply (f_equal (@length _)) in Hr. rewrite !length_map in Hr.
    rewrite <- Hr. clear. generalize 0%nat.
    induction l as [|a rest IH]; simpl; intros j0; [reflexivity | f_equal; apply IH].
  - intros k a Hk.
    pose proof (f_equal (fun x => nth_error x k) Hr) as Hnth. simpl in Hnth.
    rewrite !nth_error_map, nth_error_go_runs, Hk in Hnth. simpl in Hnth.
    destruct (nth_error bs k) as [b|]; [|discriminate].
    exists b. simpl in Hnth. congruence.
Qed.

Lemma go_range_filter_slot {A B : Type} (p : Event -> bool) (order : list nat)
      (f : nat -> A -> M B) (l : list A) (i : nat) (tr : list Event) (bs : list B) :
  go_range order l f = (tr, Some bs) ->
  (forall k a, nth_error l k = Some a ->
               Forall (fun e => p e = Nat.eqb k i) (trace_of (f k a))) ->
  filter p tr = match nth_error l i with Some a => trace_of (f i a) | None => [] end.
Proof.
  intros H Hsep. unfold go_range in H.
  rewrite (interleave_filter_slot p order _ i tr bs H).
  - rewrite nth_error_go_runs. destruct (nth_error l i); reflexivity.
  - intros k run Hk. rewrite nth_error_go_runs in Hk. simpl in Hk.
    destruct (nth_error l k) as [a|] eqn:Ha; [|discriminate].
    inversion Hk; subst. eauto.
Qed.

Lemma log_population_trace ga (j : nat) :
  trace_of (log_population ga j) = log_trace (ga_Logger ga) j.
Proof. unfold log_population, log_trace. destruct (ga_Logger ga); reflexivity. Qed.

Lemma log_trace_slot (logger : bool) (i j : nat) :
  Forall (fun e => in_slot i e = Nat.eqb j i) (log_trace logger j).
Proof. unfold log_trace. destruct logger; repeat constructor. Qed.

Lemma Enhance_returns_trace
      (speciate : Population Genome Rand -> Z -> list (Population Genome Rand))
      (clk : Clock) ga (tr : list Event) ga' :
  Enhance speciate clk ga = (tr, Some ga') ->
  exists ga1 tr1 tr2,
    migrate (set_ga_Generations ga (wrap64 (ga_Generations ga + 1))) = (tr1, Some ga1) /\
    go_range (clk_order clk) (ga_Populations ga1) (enhance_worker speciate clk ga1)
      = (tr2, Some (ga_Populations ga')) /\
    tr = tr1 ++ tr2.
Proof.
  intros H. apply Enhance_returns in H.
  destruct H as (ga1 & pops & best & tr1 & tr2 & Hmig & _ & _ & -> & (tr3 & -> & Hgo)).
  exists ga1, tr1, tr3. simpl. auto.
Qed.

(** X9: without species, an [Enhance] that returns has made these calls
    and no others: first the Migrator, once, if the migration is due;
    then, for each population, the Model once, followed by the start of
    the logger when one is provided.  The order of these calls across
    populations is the scheduler's. *)
Theorem Enhance_calls_without_species
    (speciate : Population Genome Rand -> Z -> list (Population Genome Rand))
    (clk : Clock) ga (tr : list Event) ga' :
  Enhance speciate clk ga = (tr, Some ga') ->
  NSpecies (ga_Topology ga) <= 0 ->
  exists workers,
    (migration_due ga (wrap64 (ga_Generations ga + 1)) -> tr = EvMigrate :: workers) /\
    (~ migration_due ga (wrap64 (ga_Generations ga + 1)) -> tr = workers) /\
    filter is_migrate workers = [] /\
    (forall j,
        filter (in_slot j) workers =
        if (j <? length (ga_Populations ga'))%nat
        then EvApply j None :: log_trace (ga_Logger ga) j
        else []).
Proof.
  intros H Hn. apply Enhance_returns_trace in H.
  destruct H as (ga1 & tr1 & tr2 & Hmig & Hgo & ->).
  pose proof (migrate_returns _ _ _ Hmig) as ((_ & Htopo & _ & _ & _ & Hlog) & _).
  simpl in Htopo, Hlog.
  exists tr2.
  destruct (migrate_trace (set_ga_Generations ga (wrap64 (ga_Generations ga + 1))))
    as (Hdue & Hnot & _).
  rewrite Hmig in Hdue, Hnot. simpl in Hdue, Hnot.
  change (migration_due (set_ga_Generations ga (wrap64 (ga_Generations ga + 1)))
            (wrap64 (ga_Generations ga + 1)))
    with (migration_due ga (wrap64 (ga_Generations ga + 1))) in *.
  split; [intros Hd; destruct (Hdue Hd) as [-> _]; reflexivity|].
  split; [intros Hd; rewrite (Hnot Hd); reflexivity|].
  split.
  - apply length_zero_iff_nil.
    replace tr2 with (trace_of (go_range (clk_order clk) (ga_Populations ga1)
                                  (enhance_worker speciate clk ga1)))
      by (rewrite Hgo; reflexivity).
    apply go_range_no_migration. intros; apply enhance_worker_no_migration.
  - intros j.
    destruct (go_range_each_returns _ _ _ _ _ Hgo) as [Hlen Heach].
    assert (Hworker : forall k pop, nth_error (ga_Populations ga1) k = Some pop ->
              trace_of (enhance_worker speciate clk ga1 k pop)
              = EvApply k None :: log_trace (ga_Logger ga) k).
    { intros k pop Hk. destruct (Heach k pop Hk) as [pop' Hres].
      destruct (enhance_worker speciate clk ga1 k pop) as [tr' r] eqn:Hw.
      simpl in Hres. subst r. simpl.
      apply enhance_worker_returns in Hw.
      destruct Hw as (tr3 & pop1 & Hevolve & -> & _).
      rewrite log_population_trace, Hlog.
      unfold evolve in Hevolve. rewrite Htopo in Hevolve.
      apply Z.ltb_ge in Hn. rewrite Hn in Hevolve.
      unfold apply_model in Hevolve. destruct (ga_Model ga1); [|discriminate].
      simpl in Hevolve. inversion Hevolve; subst. reflexivity. }
    rewrite (go_range_filter_slot (in_slot j) _ _ _ j _ _ Hgo).
    + rewrite Hlen.
      destruct (nth_error (ga_Populations ga1) j) as [pop|] eqn:Hj.
      * rewrite (Hworker j pop Hj).
        assert (Hlt : (j < length (ga_Populations ga1))%nat)
          by (apply nth_error_Some; congruence).
        apply Nat.ltb_lt in Hlt. rewrite Hlt. reflexivity.
      * apply nth_error_None in Hj.
        destruct (Nat.ltb_spec j (length (ga_Populations ga1))); [lia | reflexivity].
    + intros k pop Hk. rewrite (Hworker k pop Hk).
      constructor; [unfold in_slot; reflexivity | apply log_trace_slot].
Qed.

(** ** The cadence of migrations *)

Lemma Enhance_seq_migrations
      (speciate : Population Genome Rand -> Z -> list (Population Genome Rand))
      (clks : list Clock) :
  forall ga (tr : list Event) ga',
    1 < NPopulations (ga_Topology ga) ->
    ga_Migrator ga <> None ->
    1 <= ga_MigFrequency ga ->
    0 <= ga_Generations ga ->
    ga_Generations ga + Z.of_nat (length clks) <= max_int ->
    Enhance_seq speciate clks ga = (tr, Some ga') ->
    Z.of_nat (migrations tr) =
      (ga_Generations ga + Z.of_nat (length clks)) / ga_MigFrequency ga
      - ga_Generations ga / ga_MigFrequency ga.
Proof.
  induction clks as [|clk rest IH]; intros ga tr ga' Hn Hmig Hfreq Hg Hmax H.
  - simpl in *. inversion H; subst. rewrite Z.add_0_r. simpl. lia.
  - simpl in H. apply bind_returns in H.
    destruct H as (tr1 & ga1 & tr2 & Hstep & Hrest & ->).
    rewrite length_cons, Nat2Z.inj_succ in *.
    pose proof (Enhance_frame _ _ _ _ _ Hstep)
      as ((_ & Htopo & _ & Hmg & Hfr & _) & Hgen & _).
    assert (Hw : wrap64 (ga_Generations ga + 1) = ga_Generations ga + 1).
    { apply wrap64_small. unfold min_int, max_int in *. lia. }
    rewrite Hw in Hgen.
    specialize (IH ga1 tr2 ga').
    rewrite Htopo, Hmg, Hfr, Hgen in IH.
    specialize (IH Hn Hmig Hfreq ltac:(lia) ltac:(lia) Hrest).
    rewrite migrations_app, Nat2Z.inj_add, IH.
    replace (ga_Generations ga + 1 + Z.of_nat (length rest))
      with (ga_Generations ga + Z.succ (Z.of_nat (length rest))) by lia.
    rewrite (div_succ (ga_Generations ga) (ga_MigFrequency ga)) by lia.
    destruct (Enhance_migrations speciate clk ga) as (Hdue & Hnot & _).
    rewrite Hstep, Hw in Hdue, Hnot. simpl in Hdue, Hnot.
    assert (Hrem : int_rem (ga_Generations ga + 1) (ga_MigFrequency ga)
                   = Some ((ga_Generations ga + 1) mod ga_MigFrequency ga)).
    { unfold int_rem. destruct (Z.eqb_spec (ga_MigFrequency ga) 0); [lia|].
      rewrite Z.rem_mod_nonneg by lia. reflexivity. }
    destruct (Z.eqb_spec ((ga_Generations ga + 1) mod ga_MigFrequency ga) 0) as [Hz|Hz].
    + assert (Hone : migrations tr1 = 1%nat).
      { destruct Hdue as (rest0 & -> & Hrest0).
        - unfold migration_due. rewrite Hrem, Hz. auto.
        - change (EvMigrate :: rest0) with ([EvMigrate] ++ rest0).
          rewrite migrations_app, Hrest0. reflexivity. }
      rewrite Hone. lia.
    + assert (Hnone : migrations tr1 = 0%nat).
      { apply Hnot. unfold migration_due. rewrite Hrem.
        intros (_ & _ & Heq). congruence. }
      rewrite Hnone. lia.
Qed.

(** X10: with several populations, a Migrator and a migration frequency
    [f] of at least one, a sequence of [n] calls of [Enhance] that starts
    at generation [g] and stays below the largest [int] invokes the
    Migrator once per multiple of [f] among [g + 1 .. g + n]; from
    generation zero that is [n / f] times. *)
Theorem migration_cadence
    (speciate : Population Genome Rand -> Z -> list (Population Genome Rand))
    (clks : list Clock) ga (tr : list Event) ga' :
  1 < NPopulations (ga_Topology ga) ->
  ga_Migrator ga <> None ->
  1 <= ga_MigFrequency ga ->
  0 <= ga_Generations ga ->
  ga_Generations ga + Z.of_nat (length clks) <= max_int ->
  Enhance_seq speciate clks ga = (tr, Some ga') ->
  Z.of_nat (migrations tr) =
    (ga_Generations ga + Z.of_nat (length clks)) / ga_MigFrequency ga
    - ga_Generations ga / ga_MigFrequency ga /\
  (ga_Generations ga = 0 ->
   Z.of_nat (migrations tr) = Z.of_nat (length clks) / ga_MigFrequency ga).
Proof.
  intros Hn Hmig Hfreq Hg Hmax H.
  pose proof (Enhance_seq_migrations speciate clks ga tr ga' Hn Hmig Hfreq Hg Hmax H) as Hc.
  split; [exact Hc|].
  intros Hzero. rewrite Hc, Hzero. rewrite Z.div_0_l by lia. simpl. lia.
Qed.

(** ** Edge cases of Initialize *)

(** X11: [Initialize] panics whenever the genome factory is nil (it is
    called for the dummy best individual even when no population asks for
    a genome) and whenever [NPopulations] is negative; with zero
    populations and a genome factory it returns without a population or a
    call to a collaborator, the unevaluated dummy in [Best]. *)
Theorem Initialize_edge_cases (sentinel : float64) (ent : Entropy Rand) ga :
  (ga_MakeGenome ga = None -> result_of (Initialize sentinel ent ga) = None) /\
  (NPopulations (ga_Topology ga) < 0 -> Initialize sentinel ent ga = ([], None)) /\
  (forall mk, NPopulations (ga_Topology ga) = 0 -> ga_MakeGenome ga = Some mk ->
     exists ga', Initialize sentinel ent ga = ([], Some ga') /\
                 ga_Populations ga' = [] /\
                 ga_Best ga' = MakeIndividual sentinel (fst (mk (ent_best ent)))).
Proof.
  unfold Initialize. split; [|split].
  - intros Hmk. destruct (_ || _); [reflexivity|].
    unfold bind. destruct (go_range _ _ _) as [tr [pops|]]; [|reflexivity].
    simpl. rewrite Hmk. reflexivity.
  - intros Hn. apply Z.ltb_lt in Hn. rewrite Hn. reflexivity.
  - intros mk Hn Hmk. rewrite Hn.
    replace (Z.of_N (ent_max_populations ent) <? 0) with false
      by (symmetry; apply Z.ltb_ge; lia).
    simpl. unfold go_range. simpl.
    assert (Hnil : interleave (ent_order ent) (@nil (M (Population Genome Rand)))
                   = ([], Some [])).
    { induction (ent_order ent) as [|j order IH]; simpl; [reflexivity|].
      destruct j; exact IH. }
    rewrite Hnil. simpl. rewrite Hmk. unfold findBest. simpl.
    eexists. split; [reflexivity|]. simpl. auto.
Qed.

(** X12: with at least one population and no individual to put in it
    ([NIndividuals] zero or negative), [Initialize] panics: a population
    without individuals has no index 0 for [findBest] to read. *)
Theorem Initialize_without_individuals_panics
    (sentinel : float64) (ent : Entropy Rand) ga :
  1 <= NPopulations (ga_Topology ga) ->
  NIndividuals (ga_Topology ga) <= 0 ->
  result_of (Initialize sentinel ent ga) = None.
Proof.
  intros Hp Hn.
  destruct (Initialize sentinel ent ga) as [tr [ga'|]] eqn:Hinit; [|reflexivity].
  exfalso. apply Initialize_returns in Hinit.
  destruct Hinit as (mk & pops & best & _ & _ & Hrange & Hloop & _).
  apply Initialize_workers in Hrange. destruct Hrange as [Hlen Hpops].
  rewrite length_seq in Hlen.
  destruct pops as [|pop rest]; [simpl in Hlen; lia|].
  inversion Hpops as [|? ? (Hl & _) _]; subst.
  simpl in Hloop. destruct (pop_Individuals pop); [discriminate|].
  simpl in Hl. lia.
Qed.

(** ** Initialize as a reset *)

Lemma initialize_worker_settings (sentinel : float64) (ent : Entropy Rand) ga ga' (j : nat) :
  same_settings ga ga' ->
  initialize_worker sentinel ent ga' j = initialize_worker sentinel ent ga j.
Proof.
  intros (Hmk & Htopo & _ & _ & _ & Hlog).
  unfold initialize_worker, log_population. rewrite Hmk, Htopo, Hlog. reflexivity.
Qed.

(** X13: [Initialize] is a reset of the populations, of [Best] and of the
    random generator: what it leaves in these fields, the calls it makes
    and whether it panics depend on the user-provided fields and on the
    fresh generators only, not on the populations, the best individual or
    the counters the GA had before. *)
Theorem Initialize_resets (sentinel : float64) (ent : Entropy Rand) ga ga' :
  same_settings ga ga' ->
  trace_of (Initialize sentinel ent ga') = trace_of (Initialize sentinel ent ga) /\
  option_map runtime_fields (result_of (Initialize sentinel ent ga')) =
  option_map runtime_fields (result_of (Initialize sentinel ent ga)).
Proof.
  intros Hsame. pose proof Hsame as (Hmk & Htopo & _).
  unfold Initialize. rewrite Htopo.
  destruct (_ || _); [auto|].
  unfold go_range.
  rewrite (go_runs_ext (fun j (_ : nat) => initialize_worker sentinel ent ga' j)
                       (fun j (_ : nat) => initialize_worker sentinel ent ga j))
    by (intros; apply initialize_worker_settings; exact Hsame).
  unfold bind. destruct (interleave _ _) as [tr [pops|]]; [|auto].
  simpl. rewrite Hmk. destruct (ga_MakeGenome ga) as [mk|]; [|auto].
  unfold findBest. simpl.
  destruct (findBest_loop pops _); simpl; auto.
Qed.

(** ** The calls of Initialize *)

(** X14: an [Initialize] that returns has called neither the Model nor
    the Migrator; when a logger is provided it has started the logging of
    each population exactly once, in an order across populations that is
    the scheduler's, and it has made no call at all otherwise. *)
Theorem Initialize_calls (sentinel : float64) (ent : Entropy Rand) ga
        (tr : list Event) ga' :
  Initialize sentinel ent ga = (tr, Some ga') ->
  filter is_apply tr = [] /\ filter is_migrate tr = [] /\
  (forall j,
      filter (in_slot j) tr =
      if (j <? length (ga_Populations ga'))%nat then log_trace (ga_Logger ga) j else []) /\
  (ga_Logger ga = false -> tr = []).
Proof.
  intros H. apply Initialize_returns_trace in H.
  set (slots := seq 0 (Z.to_nat (NPopulations (ga_Topology ga)))) in *.
  destruct (go_range_each_returns _ _ _ _ _ H) as [Hlen Heach].
  assert (Hworker : forall k a, nth_error slots k = Some a ->
            trace_of (initialize_worker sentinel ent ga k) = log_trace (ga_Logger ga) k).
  { intros k a Hk. destruct (Heach k a Hk) as [pop Hres]. simpl in Hres.
    destruct (initialize_worker sentinel ent ga k) as [tr' r] eqn:Hw.
    simpl in Hres. subst r. simpl. revert Hw. unfold initialize_worker.
    destruct (makePopulation _ _ _ _ _ _); [|discriminate].
    intros Hw. apply bind_returns in Hw. destruct Hw as (tr1 & [] & tr2 & Hlog & Hret & ->).
    inversion Hret; subst. rewrite app_nil_r.
    rewrite <- log_population_trace, Hlog. reflexivity. }
  assert (Hall : forall p : Event -> bool,
            (forall k, p (EvLog k) = false) -> filter p tr = []).
  { intros p Hp.
    replace tr with (trace_of (go_range (ent_order ent) slots
                                 (fun j (_ : nat) => initialize_worker sentinel ent ga j)))
      by (rewrite H; reflexivity).
    unfold go_range. apply interleave_filter_none.
    apply go_runs_Forall. intros j _. unfold initialize_worker.
    destruct (makePopulation _ _ _ _ _ _); [|constructor].
    rewrite trace_bind. unfold log_population.
    destruct (ga_Logger ga); simpl; repeat constructor. apply Hp. }
  split; [apply Hall; reflexivity|]. split; [apply Hall; reflexivity|]. split.
  - intros j.
    rewrite (go_range_filter_slot (in_slot j) _ _ _ j _ _ H).
    + rewrite Hlen.
      destruct (nth_error slots j) as [a|] eqn:Hj.
      * rewrite (Hworker j a Hj).
        assert (Hlt : (j < length slots)%nat) by (apply nth_error_Some; congruence).
        apply Nat.ltb_lt in Hlt. rewrite Hlt. reflexivity.
      * apply nth_error_None in Hj.
        destruct (Nat.ltb_spec j (length slots)); [lia | reflexivity].
    + intros k a Hk. rewrite (Hworker k a Hk). apply log_trace_slot.
  - intros Hlog.
    assert (Hnone : forall e, In e tr -> False).
    { intros e Hin. destruct e as [|k s|k].
      - assert (Hm : In EvMigrate (filter is_migrate tr))
          by (apply filter_In; split; [exact Hin | reflexivity]).
        rewrite (Hall is_migrate ltac:(reflexivity)) in Hm. exact Hm.
      - assert (Hm : In (EvApply k s) (filter is_apply tr))
          by (apply filter_In; split; [exact Hin | reflexivity]).
        rewrite (Hall is_apply ltac:(reflexivity)) in Hm. exact Hm.
      - assert (Hm : In (EvLog k) (filter (in_slot k) tr)).
        { apply filter_In. split; [exact Hin|]. unfold in_slot. simpl. apply Nat.eqb_refl. }
        rewrite (go_range_filter_slot (in_slot k) _ _ _ k _ _ H) in Hm.
        + destruct (nth_error slots k) as [a|] eqn:Hk; [|exact Hm].
          rewrite (Hworker k a Hk), Hlog in Hm. exact Hm.
        + intros k' a Hk'. rewrite (Hworker k' a Hk'). apply log_trace_slot. }
    destruct tr as [|e tr0]; [reflexivity|]. exfalso. apply (Hnone e). left. reflexivity.
Qed.

End MoreProperties.

(** * The further properties on the concrete engine *)

Lemma Demo_swap_ends_keeps_populated :
  forall migrator, Some Demo.swap_ends = Some migrator -> migrator_keeps_populated migrator.
Proof.
  intros migrator H pops rng Hpops. inversion H; subst. simpl.
  apply Forall_rev. exact Hpops.
Qed.

Lemma Demo_decrease_keeps_populated (pop : Population Z Z) :
  populated pop -> populated (Model_Apply Demo.decrease pop).
Proof.
  unfold populated. simpl. destruct (pop_Individuals pop); [congruence | discriminate].
Qed.

Lemma findBest_idempotent_witness :
  let ga := Demo_edge.with_Best Demo_edge.scanned 100 pos_inf in
  findBest ga = ([], Some Demo_edge.scanned) /\
  findBest Demo_edge.scanned = ([], Some Demo_edge.scanned).
Proof.
  cbv zeta. split; [vm_compute; reflexivity|].
  refine (findBest_idempotent (Demo_edge.with_Best Demo_edge.scanned 100 pos_inf) []
            Demo_edge.scanned _).
  vm_compute; reflexivity.
Defined.

Lemma findBest_earliest_minimum_witness :
  let ga := Demo_edge.with_Best Demo_edge.scanned 100 pos_inf in
  let ga' := Demo_edge.scanned in
  findBest ga = ([], Some ga') /\
  (ga_Best ga' = ga_Best ga \/
   exists pre pop post others,
     ga_Populations ga = pre ++ pop :: post /\
     pop_Individuals pop = ga_Best ga' :: others /\
     SFltb (indi_Fitness (ga_Best ga')) (indi_Fitness (ga_Best ga)) = true /\
     (forall f, In f (first_individuals pre) -> has_number f ->
                SFltb (indi_Fitness (ga_Best ga')) (indi_Fitness f) = true) /\
     (forall f, In f (first_individuals post) ->
                SFltb (indi_Fitness f) (indi_Fitness (ga_Best ga')) = false)).
Proof.
  cbv zeta. split; [vm_compute; reflexivity|].
  refine (findBest_earliest_minimum (Demo_edge.with_Best Demo_edge.scanned 100 pos_inf) []
            Demo_edge.scanned _).
  vm_compute; reflexivity.
Defined.

Lemma Best_sticks_witness :
  let ga := Demo_edge.with_Best Demo_edge.scanned 100 NaN in
  let ga' := Demo.evolved 2 ga in
  @Enhance_seq Z Z Demo.genome_value Demo.speciate [Demo.clock; Demo.clock] ga
    = Demo_edge.run (@Enhance_seq Z Z Demo.genome_value Demo.speciate
                       [Demo.clock; Demo.clock] ga) ga /\
  ga_Best ga' = ga_Best ga.
Proof.
  cbv zeta. split; [vm_compute; reflexivity|].
  refine (proj1 (Best_sticks (GI := Demo.genome_value) Demo.speciate [Demo.clock; Demo.clock]
                   (Demo_edge.with_Best Demo_edge.scanned 100 NaN)
                   (trace_of (@Enhance_seq Z Z Demo.genome_value Demo.speciate
                                [Demo.clock; Demo.clock]
                                (Demo_edge.with_Best Demo_edge.scanned 100 NaN)))
                   (Demo.evolved 2 (Demo_edge.with_Best Demo_edge.scanned 100 NaN)) _) _).
  - vm_compute; reflexivity.
  - left. vm_compute; reflexivity.
Defined.

Lemma Enhance_zero_frequency_panics_witness :
  GA_Validate Demo_edge.ga_zero_frequency <> None /\
  @Enhance Z Z Demo.genome_value Demo.speciate Demo.clock Demo_edge.ga_zero_frequency
    = ([], None).
Proof.
  split; [vm_compute; discriminate|].
  refine (Enhance_zero_frequency_panics (GI := Demo.genome_value) Demo.speciate Demo.clock
            Demo_edge.ga_zero_frequency _ _ _).
  - vm_compute; reflexivity.
  - vm_compute; discriminate.
  - vm_compute; reflexivity.
Defined.

Lemma Enhance_nil_Model_witness :
  let ga := Demo_edge.without_Model Demo_edge.scanned in
  length (ga_Populations ga) = 2%nat /\
  (result_of (@Enhance Z Z Demo.genome_value Demo.speciate Demo.clock ga) <> None <->
   ga_Populations ga = []).
Proof.
  cbv zeta. split; [vm_compute; reflexivity|].
  refine (Enhance_nil_Model (GI := Demo.genome_value) Demo.speciate Demo.clock
            (Demo_edge.without_Model Demo_edge.scanned) _ _ _).
  - vm_compute; reflexivity.
  - vm_compute; reflexivity.
  - vm_compute; discriminate.
Defined.

Lemma Enhance_seq_returns_witness :
  exists (tr : list Event) ga',
    @Enhance_seq Z Z Demo.genome_value Demo.speciate [Demo.clock; Demo.clock; Demo.clock]
                 Demo_edge.migrating = (tr, Some ga') /\
    Forall populated (ga_Populations ga') /\
    same_settings Demo_edge.migrating ga'.
Proof.
  refine (Enhance_seq_returns (GI := Demo.genome_value) Demo.speciate
            [Demo.clock; Demo.clock; Demo.clock] Demo_edge.migrating _ _ _ _).
  - vm_compute; reflexivity.
  - vm_compute. repeat constructor; discriminate.
  - exact Demo_swap_ends_keeps_populated.
  - intros model pop Hmodel Hpop. vm_compute in Hmodel. inversion Hmodel; subst.
    split.
    + intros _. apply Demo_decrease_keeps_populated. exact Hpop.
    + intros Hpos. vm_compute in Hpos. discriminate.
Defined.

Lemma Enhance_keeps_settings_and_size_witness :
  let ga' := Demo.evolved 1 Demo_edge.scanned in
  same_settings Demo_edge.scanned ga' /\
  ga_Age ga' = 5 /\
  length (ga_Populations ga') = 2%nat.
Proof.
  cbv zeta.
  destruct (Enhance_keeps_settings_and_size (GI := Demo.genome_value) Demo.speciate Demo.clock
              Demo_edge.scanned
              (trace_of (@Enhance Z Z Demo.genome_value Demo.speciate Demo.clock
                           Demo_edge.scanned))
              (Demo.evolved 1 Demo_edge.scanned))
    as (Hsame & Hage & Hkeep & _).
  - vm_compute; reflexivity.
  - split; [exact Hsame|]. split; [rewrite Hage; vm_compute; reflexivity|].
    destruct Hkeep as [Hlen _].
    + vm_compute. intros (_ & H & _). apply H. reflexivity.
    + rewrite Hlen. vm_compute; reflexivity.
Defined.

Lemma Enhance_calls_without_species_witness :
  let ga := Demo.evolved 1 Demo_edge.migrating in
  let run := @Enhance Z Z Demo.genome_value Demo.speciate Demo_edge.clock_reordered ga in
  let ga' := Demo.the run ga in
  ga_Generations ga = 1 /\
  run = ([EvMigrate; EvApply 1 None; EvApply 0 None], Some ga') /\
  exists workers,
    trace_of run = EvMigrate :: workers /\
    filter is_migrate workers = [] /\
    (forall j,
        filter (in_slot j) workers =
        if (j <? length (ga_Populations ga'))%nat
        then EvApply j None :: log_trace (ga_Logger ga) j
        else []).
Proof.
  cbv zeta. split; [vm_compute; reflexivity|]. split; [vm_compute; reflexivity|].
  destruct (Enhance_calls_without_species (GI := Demo.genome_value) Demo.speciate
              Demo_edge.clock_reordered (Demo.evolved 1 Demo_edge.migrating)
              (trace_of (@Enhance Z Z Demo.genome_value Demo.speciate
                           Demo_edge.clock_reordered (Demo.evolved 1 Demo_edge.migrating)))
              (Demo.the (@Enhance Z Z Demo.genome_value Demo.speciate
                           Demo_edge.clock_reordered (Demo.evolved 1 Demo_edge.migrating))
                        (Demo.evolved 1 Demo_edge.migrating)))
    as (workers & Hdue & _ & Hmig & Hslots).
  - vm_compute; reflexivity.
  - vm_compute; discriminate.
  - exists workers. split; [|split; [exact Hmig | exact Hslots]].
    apply Hdue. vm_compute. repeat split; discriminate.
Defined.

Lemma migration_cadence_witness :
  let clks := repeat Demo.clock 5 in
  Z.of_nat (migrations (trace_of (@Enhance_seq Z Z Demo.genome_value Demo.speciate clks
                                    Demo_edge.migrating)))
    = Z.of_nat (length clks) / 2.
Proof.
  cbv zeta.
  refine (proj2 (migration_cadence (GI := Demo.genome_value) Demo.speciate
                   (repeat Demo.clock 5) Demo_edge.migrating
                   (trace_of (@Enhance_seq Z Z Demo.genome_value Demo.speciate
                                (repeat Demo.clock 5) Demo_edge.migrating))
                   (Demo.evolved 5 Demo_edge.migrating) _ _ _ _ _ _) _).
  - vm_compute; reflexivity.
  - vm_compute; discriminate.
  - vm_compute; discriminate.
  - vm_compute; discriminate.
  - vm_compute; discriminate.
  - vm_compute; reflexivity.
  - vm_compute; reflexivity.
Defined.

Lemma Initialize_edge_cases_witness :
  result_of (@Initialize Z Z Demo.genome_value pos_inf Demo.entropy
               (Demo_edge.without_MakeGenome Demo.ga_2x5)) = None.
Proof.
  refine (proj1 (Initialize_edge_cases (GI := Demo.genome_value) pos_inf Demo.entropy
                   (Demo_edge.without_MakeGenome Demo.ga_2x5)) _).
  vm_compute; reflexivity.
Defined.

Lemma Initialize_without_individuals_panics_witness :
  Topology_Validate (ga_Topology Demo_edge.ga_no_individual) <> None /\
  result_of (@Initialize Z Z Demo.genome_value pos_inf Demo.entropy
               Demo_edge.ga_no_individual) = None.
Proof.
  split; [vm_compute; discriminate|].
  refine (Initialize_without_individuals_panics (GI := Demo.genome_value) pos_inf
            Demo.entropy Demo_edge.ga_no_individual _ _).
  - vm_compute; discriminate.
  - vm_compute; discriminate.
Defined.

Lemma Initialize_resets_witness :
  let ga' := Demo.evolved 2 Demo_edge.scanned in
  ga_Best ga' <> ga_Best Demo.ga_2x5 /\
  option_map runtime_fields
    (result_of (@Initialize Z Z Demo.genome_value pos_inf Demo.entropy ga')) =
  option_map runtime_fields
    (result_of (@Initialize Z Z Demo.genome_value pos_inf Demo.entropy Demo.ga_2x5)).
Proof.
  cbv zeta. split; [vm_compute; discriminate|].
  refine (proj2 (Initialize_resets (GI := Demo.genome_value) pos_inf Demo.entropy
                   Demo.ga_2x5 (Demo.evolved 2 Demo_edge.scanned) _)).
  repeat split; vm_compute; reflexivity.
Defined.

Lemma Initialize_calls_witness :
  let ga := Demo_edge.with_Logger Demo.ga_2x5 in
  let run := @Initialize Z Z Demo.genome_value pos_inf Demo_edge.entropy_reordered ga in
  let ga' := Demo.the run ga in
  run = ([EvLog 1; EvLog 0], Some ga') /\
  (forall j,
      filter (in_slot j) (trace_of run) =
      if (j <? length (ga_Populations ga'))%nat then log_trace (ga_Logger ga) j else []).
Proof.
  cbv zeta. split; [vm_compute; reflexivity|].
  refine (proj1 (proj2 (proj2
            (Initialize_calls (GI := Demo.genome_value) pos_inf Demo_edge.entropy_reordered
               (Demo_edge.with_Logger Demo.ga_2x5)
               (trace_of (@Initialize Z Z Demo.genome_value pos_inf
                            Demo_edge.entropy_reordered (Demo_edge.with_Logger Demo.ga_2x5)))
               (Demo.the (@Initialize Z Z Demo.genome_value pos_inf
                            Demo_edge.entropy_reordered (Demo_edge.with_Logger Demo.ga_2x5))
                         (Demo_edge.with_Logger Demo.ga_2x5)) _)))).
  vm_compute; reflexivity.
Defined.
